(** * Remote Command Center: client store and server console reconciliation

    A shallow embedding of the state handling of the two front ends:

    - [client-app/src/App.tsx]: [normalizeServerUrl], [initialSession], the
      zustand store [useCommandStore] ([login], [logout], [fetchData],
      [execute], [integrateEvent], [setServerUrl], ...) and the parameter
      guard of [CommandDetailSheet.handleExecute];
    - the server console ([useCommandCenterData]): [refresh] and the
      event listener that merges pushed events into the two React states.

    JavaScript values are modelled as follows.  A string is a [string] whose
    characters stand for code units below 256.  An array is a [list].
    [Array.prototype.sort] is the stable sort the language standard
    prescribes ([stableSortOf_sort] below: a consistent comparator leaves an
    engine no choice); a comparator returns a number, here a [Z] of the
    same sign.  A timestamp string is read through [dayjs(_).valueOf()],
    taken as a total function into [Z]: payloads whose timestamps do not
    parse (NaN) are not well formed and are not covered.  A network call is
    modelled by its outcome, passed in as an argument, and by the list of
    requests an operation issues; an operation runs to its end before the
    next call into the store.

    The file has the definitions first (arrays, strings, the runtime, the
    client, the server console, a reference runtime with closed inputs, the
    vocabulary of the properties) and the facts after them. *)

From stdpp Require Import gmap strings list sorting pretty.
From Stdlib Require Import ZArith Lia Ascii.

Local Open Scope Z_scope.

(** ** Arrays *)

(** A comparator is consistent when it orders its arguments as a total
    preorder; only then does the standard fix the result of [sort]. *)
Class ConsistentComparator {A : Type} (cmp : A → A → Z) : Prop := {
  cmp_total a b : cmp a b ≤ 0 ∨ cmp b a ≤ 0;
  cmp_trans a b c : cmp a b ≤ 0 → cmp b c ≤ 0 → cmp a c ≤ 0
}.

Section array.
Context {A : Type}.

(** [arr.sort(cmp)]: stable; [cmp a b ≤ 0] keeps [a] before [b].  The
    element entering last is the leftmost one, so it stops in front of the
    first element it does not have to follow. *)
Fixpoint sort_insert (cmp : A → A → Z) (x : A) (l : list A) : list A :=
  match l with
  | [] => [x]
  | y :: l' =>
      if decide (cmp x y ≤ 0) then x :: y :: l' else y :: sort_insert cmp x l'
  end.

Fixpoint sort (cmp : A → A → Z) (l : list A) : list A :=
  match l with
  | [] => []
  | x :: l' => sort_insert cmp x (sort cmp l')
  end.

(** [arr.slice(start, end)] for indices within [0 .. 2^53). *)
Definition slice (start stop : nat) (l : list A) : list A :=
  take (stop - start) (drop start l).

(** [arr.findIndex(f)]: the first index whose element satisfies [f],
    [-1] when there is none. *)
Fixpoint findIndex (f : A → bool) (l : list A) : Z :=
  match l with
  | [] => -1
  | x :: l' =>
      if f x then 0
      else let i := findIndex f l' in if decide (0 ≤ i) then i + 1 else -1
  end.

(** [arr.splice(start, 1, item)] on a copy, for [0 ≤ start]: the element
    at [start] is replaced; past the end the item is appended. *)
Definition splice1 (start : nat) (item : A) (l : list A) : list A :=
  take start l ++ item :: drop (S start) l.
End array.

(** The order a comparator induces. *)
Definition precedes {A : Type} (cmp : A → A → Z) (a b : A) : Prop := cmp a b ≤ 0.

(** ** Strings *)

Definition code (c : ascii) : N := N_of_ascii c.

(** White space and line terminators that [trim] strips, among the code
    units below 256. *)
Definition isWhiteSpace (c : ascii) : bool :=
  let n := code c in
  ((9 <=? n) && (n <=? 13))%N || (n =? 32)%N || (n =? 160)%N.

Fixpoint trimStart (s : string) : string :=
  match s with
  | EmptyString => EmptyString
  | String c s' => if isWhiteSpace c then trimStart s' else s
  end.

Fixpoint trimEnd (s : string) : string :=
  match s with
  | EmptyString => EmptyString
  | String c s' =>
      match trimEnd s' with
      | EmptyString => if isWhiteSpace c then EmptyString else String c EmptyString
      | t => String c t
      end
  end.

(** [s.trim()] *)
Definition trim (s : string) : string := trimEnd (trimStart s).

(** [s.replace(/\/+$/, '')]: the trailing run of slashes is removed. *)
Fixpoint stripTrailingSlashes (s : string) : string :=
  match s with
  | EmptyString => EmptyString
  | String c s' =>
      match stripTrailingSlashes s' with
      | EmptyString => if Ascii.eqb c "/" then EmptyString else String c EmptyString
      | t => String c t
      end
  end.

(** A letter of a regular expression under the [i] flag. *)
Definition matchesIgnoreCase (lower : ascii) (c : ascii) : bool :=
  Ascii.eqb c lower || (code c + 32 =? code lower)%N.

Fixpoint startsWithIgnoreCase (letters : list ascii) (s : string) : option string :=
  match letters, s with
  | [], _ => Some s
  | l :: letters', String c s' =>
      if matchesIgnoreCase l c then startsWithIgnoreCase letters' s' else None
  | _ :: _, EmptyString => None
  end.

(** [/^https?:\/\//i.test(s)] *)
Definition hasHttpScheme (s : string) : bool :=
  match startsWithIgnoreCase ["h"; "t"; "t"; "p"]%char s with
  | Some rest =>
      String.prefix "://" rest ||
      match rest with
      | String c rest' => matchesIgnoreCase "s" c && String.prefix "://" rest'
      | EmptyString => false
      end
  | None => false
  end.

(** [s.split('\n')]: never empty; an empty string splits into one empty
    piece. *)
Fixpoint splitLines (s : string) : list string :=
  match s with
  | EmptyString => [EmptyString]
  | String c s' =>
      if Ascii.eqb c "010" then EmptyString :: splitLines s'
      else match splitLines s' with
           | piece :: pieces => String c piece :: pieces
           | [] => [String c EmptyString]
           end
  end.

(** [arr.join(sep)] on an array of strings. *)
Definition join (sep : string) (l : list string) : string := String.concat sep l.

(** [Boolean(s)] for a string: the empty string is falsy. *)
Definition truthy (s : string) : bool := negb (String.eqb s "").

(** [s.toLowerCase()] on code units below 256: the letters [A]-[Z] and the
    capital letters of the upper half, the multiplication sign apart. *)
Definition lowerCaseChar (c : ascii) : ascii :=
  let n := code c in
  if ((65 <=? n) && (n <=? 90))%N || ((192 <=? n) && (n <=? 222) && negb (n =? 215))%N
  then ascii_of_N (n + 32) else c.

Fixpoint toLowerCase (s : string) : string :=
  match s with
  | EmptyString => EmptyString
  | String c s' => String (lowerCaseChar c) (toLowerCase s')
  end.

(** [s.split(sep)] for a separator of one character: never empty. *)
Fixpoint split (sep : ascii) (s : string) : list string :=
  match s with
  | EmptyString => [EmptyString]
  | String c s' =>
      if Ascii.eqb c sep then EmptyString :: split sep s'
      else match split sep s' with
           | piece :: pieces => String c piece :: pieces
           | [] => [String c EmptyString]
           end
  end.

(** [s.includes(needle)] *)
Fixpoint includes (s needle : string) : bool :=
  String.prefix needle s ||
  match s with
  | EmptyString => false
  | String _ s' => includes s' needle
  end.

(** The line feed, as a string. *)
Definition lineFeed : string := String "010" EmptyString.

(** [a ?? b]; a chain [a ?? b ?? c] yields the first operand that is
    neither null nor undefined, whichever way it is bracketed. *)
Definition nullish {A : Type} (a : option A) (b : A) : A := default b a.
Infix "??" := nullish (at level 45, right associativity).

(** ** The runtime

    What the code takes from the platform and its libraries and the
    embedding leaves open: the collation behind [localeCompare], the date
    parser behind [dayjs], and the JSON codec at the one shape the code
    stores.  [JSON_parse] is [None] when [JSON.parse] throws, as it does on
    the empty string, and [Some None] when it yields [null]. *)

Module StoredSession.
Record t := mk { serverUrl : option string; token : option string }.
End StoredSession.

Class Runtime := {
  localeCompare : string → string → Z;
  localeCompare_consistent :: ConsistentComparator localeCompare;
  dayjs_valueOf : string → Z;
  JSON_stringify : StoredSession.t → string;
  JSON_parse : string → option (option StoredSession.t);
  JSON_parse_empty : JSON_parse "" = None
}.

(** ** Errors and requests *)

(** What a rejected request or a [throw] carries: an axios error with its
    own message and, when the server answered, [response.data.message] and
    [response.statusText]; or a plain [Error]. *)
Inductive JsError :=
  | AxiosError (message : string) (dataMessage statusText : option string)
  | Error (message : string).

(** [(error as Error).message] *)
Definition errorMessage (e : JsError) : string :=
  match e with AxiosError m _ _ => m | Error m => m end.

(** [axios.isAxiosError(error)
       ? error.response?.data?.message ?? error.response?.statusText ?? fallback
       : (error as Error).message] *)
Definition surfacedMessage (fallback : string) (e : JsError) : string :=
  match e with
  | AxiosError _ dataMessage statusText => dataMessage ?? statusText ?? fallback
  | Error m => m
  end.

Inductive Request :=
  | POST_login (url username password : string)
  | GET_commands (url authorization : string)
  | GET_history (url authorization : string)
  | POST_execute (url : string) (parameters : list string) (authorization : string).

(** [Promise.all([a, b])]: both values, or the reason of the promise that
    rejects first. *)
Definition Promise_all {E A B : Type} (a : E + A) (b : E + B)
    (secondRejectsFirst : bool) : E + (A * B) :=
  match a, b with
  | inr x, inr y => inr (x, y)
  | inl e, inr _ => inl e
  | inr _, inl e => inl e
  | inl e1, inl e2 => inl (if secondRejectsFirst then e2 else e1)
  end.

(** [window.localStorage], when there is a [window]. *)
Abbreviation Window := (option (gmap string string)).

Definition getItem (key : string) (w : Window) : option string := w ≫= (.!! key).
Definition setItem (key value : string) (w : Window) : Window := <[key := value]> <$> w.
Definition removeItem (key : string) (w : Window) : Window := delete key <$> w.

(** ** The client ([client-app/src/App.tsx]) *)

Module Client.

Definition SESSION_STORAGE_KEY : string := "rcc.client.session".
Definition SERVER_STORAGE_KEY : string := "rcc.client.server".

Inductive ExecutionStatus := pending | running | success | error.

Module CommandDefinition.
Record t := mk {
  id : string;
  name : string;
  executable : string;
  args : list string;
  description : option string;
  tags : list string;
  allowArguments : bool;
  createdAt : string;
  updatedAt : string
}.
End CommandDefinition.

Module ExecutionLog.
Record t := mk {
  id : string;
  commandId : string;
  commandName : string;
  requestedBy : string;
  status : ExecutionStatus;
  output : string;
  error : option string;
  parameters : list string;
  startedAt : string;
  finishedAt : option string
}.
End ExecutionLog.

Module LoginResponse.
Record t := mk { token : string; expiresAt : string }.
End LoginResponse.

Inductive ServerEvent :=
  | command_created (payload : CommandDefinition.t)
  | command_updated (payload : CommandDefinition.t)
  | command_deleted (id : string)
  | execution_started (payload : ExecutionLog.t)
  | execution_updated (payload : ExecutionLog.t)
  | execution_finished (payload : ExecutionLog.t).

Inductive ConnectionStatus := disconnected | connecting | connected.

(** [normalizeServerUrl] *)
Definition normalizeServerUrl (input : string) : string :=
  let trimmed := trim input in
  if negb (truthy trimmed) then ""
  else
    let withoutTrailingSlash := stripTrailingSlashes trimmed in
    if negb (hasHttpScheme withoutTrailingSlash)
    then "https://" +:+ withoutTrailingSlash
    else withoutTrailingSlash.

(** The data fields of the store; its function fields are the operations
    below. *)
Module StoreState.
Record t := mk {
  serverUrl : string;
  token : string;
  status : ConnectionStatus;
  socketConnected : bool;
  loading : bool;
  error : option string;
  commands : list CommandDefinition.t;
  history : list ExecutionLog.t
}.

(** [set({field: v})]: a shallow merge, one field at a time. *)
Definition set_serverUrl v s :=
  mk v (token s) (status s) (socketConnected s) (loading s) (error s) (commands s) (history s).
Definition set_token v s :=
  mk (serverUrl s) v (status s) (socketConnected s) (loading s) (error s) (commands s) (history s).
Definition set_status v s :=
  mk (serverUrl s) (token s) v (socketConnected s) (loading s) (error s) (commands s) (history s).
Definition set_socketConnected v s :=
  mk (serverUrl s) (token s) (status s) v (loading s) (error s) (commands s) (history s).
Definition set_loading v s :=
  mk (serverUrl s) (token s) (status s) (socketConnected s) v (error s) (commands s) (history s).
Definition set_error v s :=
  mk (serverUrl s) (token s) (status s) (socketConnected s) (loading s) v (commands s) (history s).
Definition set_commands v s :=
  mk (serverUrl s) (token s) (status s) (socketConnected s) (loading s) (error s) v (history s).
Definition set_history v s :=
  mk (serverUrl s) (token s) (status s) (socketConnected s) (loading s) (error s) (commands s) v.
End StoreState.

(** What an operation of the store leaves behind: the store, the local
    storage, the requests it issued in order, and what its caller sees
    ([inl]: it threw or its promise rejected). *)
Module Effect.
Record t (R : Type) := mk {
  state : StoreState.t;
  window : Window;
  requests : list Request;
  result : JsError + R
}.
Arguments mk {R}.
Arguments state {R}.
Arguments window {R}.
Arguments requests {R}.
Arguments result {R}.
End Effect.

Section store.
Context `{Runtime}.

(** The comparators handed to [sort]. *)
Definition byName (a b : CommandDefinition.t) : Z :=
  localeCompare (toLowerCase (CommandDefinition.name a))
                (toLowerCase (CommandDefinition.name b)).

Definition byStartedAtDesc (a b : ExecutionLog.t) : Z :=
  dayjs_valueOf (ExecutionLog.startedAt b) - dayjs_valueOf (ExecutionLog.startedAt a).

(** [initialSession] *)
Definition initialSession (w : Window) : string * string :=
  match w with
  | None => ("", "")
  | Some localStorage =>
      match localStorage !! SESSION_STORAGE_KEY with
      | Some stored =>
          if truthy stored then
            match JSON_parse stored with
            | Some (Some parsed) =>
                (StoredSession.serverUrl parsed ?? "", StoredSession.token parsed ?? "")
            | Some None | None => ("", "")
            end
          else (localStorage !! SERVER_STORAGE_KEY ?? "", "")
      | None => (localStorage !! SERVER_STORAGE_KEY ?? "", "")
      end
  end.

(** The store as [create] builds it. *)
Definition useCommandStore (w : Window) : StoreState.t :=
  let session := initialSession w in
  StoreState.mk session.1 session.2
    (if truthy session.2 then connecting else disconnected)
    false false None [] [].

(** [login] *)
Definition login (serverUrl username password : string)
    (response : JsError + LoginResponse.t)
    (s : StoreState.t) (w : Window) : Effect.t unit :=
  let normalizedUrl := normalizeServerUrl serverUrl in
  if negb (truthy normalizedUrl) then
    Effect.mk (StoreState.set_error (Some "Please provide a server URL.") s) w []
      (inl (Error "Missing server URL"))
  else
    let s1 := StoreState.set_serverUrl normalizedUrl
                (StoreState.set_loading true
                  (StoreState.set_error None
                    (StoreState.set_status connecting s))) in
    let sent := [POST_login (normalizedUrl +:+ "/api/auth/login") username password] in
    match response with
    | inr data =>
        let token := LoginResponse.token data in
        Effect.mk
          (StoreState.set_loading false
            (StoreState.set_status connected (StoreState.set_token token s1)))
          (setItem SESSION_STORAGE_KEY
             (JSON_stringify (StoredSession.mk (Some normalizedUrl) (Some token))) w)
          sent (inr ())
    | inl err =>
        let message := surfacedMessage "Unable to authenticate" err in
        Effect.mk
          (StoreState.set_token ""
            (StoreState.set_error (Some message)
              (StoreState.set_loading false (StoreState.set_status disconnected s1))))
          (removeItem SESSION_STORAGE_KEY w)
          sent (inl err)
    end.

(** [logout] *)
Definition logout (s : StoreState.t) (w : Window) : StoreState.t * Window :=
  (StoreState.set_history []
     (StoreState.set_commands []
       (StoreState.set_socketConnected false
         (StoreState.set_status disconnected (StoreState.set_token "" s)))),
   removeItem SESSION_STORAGE_KEY w).

(** [fetchData] *)
Definition fetchData
    (commandsRes : JsError + list CommandDefinition.t)
    (historyRes : JsError + list ExecutionLog.t)
    (secondRejectsFirst : bool)
    (s : StoreState.t) : StoreState.t * list Request :=
  let serverUrl := StoreState.serverUrl s in
  let token := StoreState.token s in
  if negb (truthy serverUrl) || negb (truthy token) then (s, [])
  else
    let s1 := StoreState.set_error None (StoreState.set_loading true s) in
    let sent := [GET_commands (serverUrl +:+ "/api/commands") ("Bearer " +:+ token);
                 GET_history (serverUrl +:+ "/api/history") ("Bearer " +:+ token)] in
    match Promise_all commandsRes historyRes secondRejectsFirst with
    | inr (commandsData, historyData) =>
        let commands := sort byName commandsData in
        let history := sort byStartedAtDesc historyData in
        (StoreState.set_status connected
           (StoreState.set_loading false
             (StoreState.set_history history (StoreState.set_commands commands s1))),
         sent)
    | inl err =>
        let message := surfacedMessage "Unable to reach server" err in
        (StoreState.set_error (Some message) (StoreState.set_loading false s1), sent)
    end.

(** [execute] *)
Definition execute (commandId : string) (parameters : list string)
    (response : JsError + ExecutionLog.t)
    (s : StoreState.t) : StoreState.t * list Request * (JsError + string) :=
  let serverUrl := StoreState.serverUrl s in
  let token := StoreState.token s in
  if negb (truthy serverUrl) || negb (truthy token) then
    (s, [], inl (Error "Not authenticated"))
  else
    let sent := [POST_execute (serverUrl +:+ "/api/commands/" +:+ commandId +:+ "/execute")
                   parameters ("Bearer " +:+ token)] in
    match response with
    | inr data => (s, sent, inr (ExecutionLog.id data))
    | inl err =>
        let message := surfacedMessage "Command failed" err in
        (StoreState.set_error (Some message) s, sent, inl err)
    end.

(** [integrateEvent], on the six events of the [ServerEvent] type; the
    [default] branch, for anything else, leaves the store as it is. *)
Definition integrateEvent (event : ServerEvent) (state : StoreState.t) : StoreState.t :=
  match event with
  | command_created payload =>
      let commands :=
        sort byName
          (payload :: filter (λ c, CommandDefinition.id c ≠ CommandDefinition.id payload)
                        (StoreState.commands state)) in
      StoreState.set_commands commands state
  | command_updated payload =>
      let commands :=
        sort byName
          (payload :: filter (λ c, CommandDefinition.id c ≠ CommandDefinition.id payload)
                        (StoreState.commands state)) in
      StoreState.set_commands commands state
  | command_deleted id =>
      let commands :=
        filter (λ command, CommandDefinition.id command ≠ id) (StoreState.commands state) in
      StoreState.set_commands commands state
  | execution_started payload
  | execution_updated payload
  | execution_finished payload =>
      let history :=
        slice 0 100
          (sort byStartedAtDesc
             (payload :: filter (λ item, ExecutionLog.id item ≠ ExecutionLog.id payload)
                           (StoreState.history state))) in
      StoreState.set_history history state
  end.

(** The message handler of [useLiveEvents] hands every parsed message to
    [integrateEvent]: the store after the events of the list, the first
    first. *)
Definition deliver (events : list ServerEvent) (s : StoreState.t) : StoreState.t :=
  foldl (λ state event, integrateEvent event state) s events.

(** [markSocketConnected] *)
Definition markSocketConnected (connected : bool) (s : StoreState.t) : StoreState.t :=
  StoreState.set_socketConnected connected s.

(** [setServerUrl] *)
Definition setServerUrl (url : string) (s : StoreState.t) (w : Window)
    : StoreState.t * Window :=
  let normalizedUrl := normalizeServerUrl url in
  let w1 := setItem SERVER_STORAGE_KEY normalizedUrl w in
  (StoreState.set_serverUrl normalizedUrl s,
   match getItem SESSION_STORAGE_KEY w1 with
   | Some session =>
       if truthy session then
         match JSON_parse session with
         | Some parsed =>
             let token := parsed ≫= StoredSession.token in
             setItem SESSION_STORAGE_KEY
               (JSON_stringify (StoredSession.mk (Some normalizedUrl) token)) w1
         | None => w1
         end
       else w1
   | None => w1
   end).

(** [clearError] *)
Definition clearError (s : StoreState.t) : StoreState.t := StoreState.set_error None s.

(** [Dashboard.handleExecute], for the command the sheet is open on: the
    store's error is cleared and [execute] is called; what [execute] throws
    goes on to the caller. *)
Definition Dashboard_handleExecute (selectedCommand : option CommandDefinition.t)
    (parameters : list string) (response : JsError + ExecutionLog.t)
    (s : StoreState.t) : StoreState.t * list Request * (JsError + unit) :=
  match selectedCommand with
  | None => (s, [], inr ())
  | Some selected =>
      match execute (CommandDefinition.id selected) parameters response (clearError s) with
      | (s', sent, inr _) => (s', sent, inr ())
      | (s', sent, inl err) => (s', sent, inl err)
      end
  end.

(** The parameters [CommandDetailSheet.handleExecute] reads off its text
    area: [parameterInput.split('\n').map(v => v.trim()).filter(Boolean)]. *)
Definition parseParameters (parameterInput : string) : list string :=
  List.filter truthy (trim <$> splitLines parameterInput).

Definition customParametersRefused : string :=
  "This command does not accept custom parameters. Please reset to defaults.".

(** [CommandDetailSheet.handleExecute]: the sheet's [error] state after the
    call, the store, and the requests issued. *)
Definition CommandDetailSheet_handleExecute (command : CommandDefinition.t)
    (parameterInput : string) (response : JsError + ExecutionLog.t)
    (s : StoreState.t) : option string * StoreState.t * list Request :=
  let parameters := parseParameters parameterInput in
  if negb (CommandDefinition.allowArguments command)
     && negb (length parameters =? 0)%nat
     && negb (String.eqb (join "," parameters) (join "," (CommandDefinition.args command)))
  then (Some customParametersRefused, s, [])
  else
    match Dashboard_handleExecute (Some command) parameters response s with
    | (s', sent, inr _) => (None, s', sent)
    | (s', sent, inl err) => (Some (errorMessage err), s', sent)
    end.

(** One call into the store, with the outcome of the request it makes. *)
Inductive Action :=
  | Login (serverUrl username password : string) (response : JsError + LoginResponse.t)
  | Logout
  | FetchData (commandsRes : JsError + list CommandDefinition.t)
              (historyRes : JsError + list ExecutionLog.t) (secondRejectsFirst : bool)
  | Execute (commandId : string) (parameters : list string)
            (response : JsError + ExecutionLog.t)
  | IntegrateEvent (event : ServerEvent)
  | MarkSocketConnected (connected : bool)
  | SetServerUrl (url : string)
  | ClearError.

Definition step (a : Action) (sw : StoreState.t * Window) : StoreState.t * Window :=
  let '(s, w) := sw in
  match a with
  | Login serverUrl username password response =>
      let r := login serverUrl username password response s w in
      (Effect.state r, Effect.window r)
  | Logout => logout s w
  | FetchData commandsRes historyRes secondRejectsFirst =>
      ((fetchData commandsRes historyRes secondRejectsFirst s).1, w)
  | Execute commandId parameters response =>
      ((execute commandId parameters response s).1.1, w)
  | IntegrateEvent event => (integrateEvent event s, w)
  | MarkSocketConnected flag => (markSocketConnected flag s, w)
  | SetServerUrl url => setServerUrl url s w
  | ClearError => (clearError s, w)
  end.

(** The store after a run of calls, the first of the list first, each run
    to its end. *)
Definition run (actions : list Action) (sw : StoreState.t * Window)
    : StoreState.t * Window :=
  foldl (λ acc a, step a acc) sw actions.

(** [useHydrateSession]: with a token in the store, the snapshot is
    fetched. *)
Definition useHydrateSession
    (commandsRes : JsError + list CommandDefinition.t)
    (historyRes : JsError + list ExecutionLog.t)
    (secondRejectsFirst : bool)
    (s : StoreState.t) : StoreState.t * list Request :=
  if truthy (StoreState.token s)
  then fetchData commandsRes historyRes secondRejectsFirst s
  else (s, []).

(** [LoginView.handleSubmit], on the server address, the user name and the
    password typed in the form. *)
Definition LoginView_handleSubmit (serverUrl username password : string)
    (response : JsError + LoginResponse.t)
    (s : StoreState.t) (w : Window) : Effect.t unit :=
  let '(s1, w1) := setServerUrl serverUrl (clearError s) w in
  login serverUrl username password response s1 w1.

(** The text area of [CommandDetailSheet] when it opens on a command:
    [command.args.join('\n')]. *)
Definition initialParameterInput (command : CommandDefinition.t) : string :=
  join lineFeed (CommandDefinition.args command).

(** What [App] renders. *)
Inductive View := LoginView | Dashboard.

Definition App (s : StoreState.t) : View :=
  if negb (truthy (StoreState.token s)) then LoginView else Dashboard.

End store.

(** The states of [CommandDetailSheet], with the command it is shown. *)
Module Sheet.
Record t := mk {
  command : CommandDefinition.t;
  parameterInput : string;
  error : option string
}.
End Sheet.







End Client.

(** ** The server console ([useCommandCenterData]) *)

Module ServerConsole.

Inductive ExecutionStatus := pending | running | success | error.

Module CommandDefinition.
Record t := mk {
  id : string;
  name : string;
  executable : string;
  args : list string;
  description : option string;
  tags : option (list string);
  allowArguments : bool;
  createdAt : string;
  updatedAt : string
}.
End CommandDefinition.

Module ExecutionLog.
Record t := mk {
  id : string;
  commandId : string;
  commandName : string;
  requestedBy : string;
  status : ExecutionStatus;
  output : string;
  error : option string;
  parameters : list string;
  startedAt : string;
  finishedAt : option string
}.
End ExecutionLog.

Inductive CommandCenterEvent :=
  | command_created (payload : CommandDefinition.t)
  | command_updated (payload : CommandDefinition.t)
  | command_deleted (id : string)
  | execution_started (payload : ExecutionLog.t)
  | execution_updated (payload : ExecutionLog.t)
  | execution_finished (payload : ExecutionLog.t).

(** What [invokeOrThrow] rejects with: an [Error], or a value that is not
    one. *)
Inductive Thrown :=
  | ThrownError (message : string)
  | ThrownValue.

(** The four React states of [useCommandCenterData]. *)
Module Data.
Record t := mk {
  commands : list CommandDefinition.t;
  history : list ExecutionLog.t;
  loading : bool;
  error : option string
}.
End Data.

Section console.
Context `{Runtime}.

Definition byStartedAtDesc (a b : ExecutionLog.t) : Z :=
  dayjs_valueOf (ExecutionLog.startedAt b) - dayjs_valueOf (ExecutionLog.startedAt a).

(** [refresh], given what the two [invokeOrThrow] calls come to. *)
Definition refresh
    (commandList : Thrown + list CommandDefinition.t)
    (historyList : Thrown + list ExecutionLog.t)
    (secondRejectsFirst : bool) (d : Data.t) : Data.t :=
  match Promise_all commandList historyList secondRejectsFirst with
  | inr (commandList, historyList) => Data.mk commandList historyList false None
  | inl err =>
      let message :=
        match err with
        | ThrownError message => message
        | ThrownValue => "Failed to load data"
        end in
      Data.mk (Data.commands d) (Data.history d) false (Some message)
  end.

(** The updater the listener hands to [setCommands]. *)
Definition mergeCommand (payload : CommandDefinition.t)
    (prev : list CommandDefinition.t) : list CommandDefinition.t :=
  let existingIndex :=
    findIndex (λ item, String.eqb (CommandDefinition.id item) (CommandDefinition.id payload))
      prev in
  if decide (0 ≤ existingIndex) then splice1 (Z.to_nat existingIndex) payload prev
  else payload :: prev.

(** The updater the listener hands to [setHistory]. *)
Definition mergeExecution (payload : ExecutionLog.t)
    (prev : list ExecutionLog.t) : list ExecutionLog.t :=
  let existingIndex :=
    findIndex (λ item, String.eqb (ExecutionLog.id item) (ExecutionLog.id payload)) prev in
  if decide (0 ≤ existingIndex) then splice1 (Z.to_nat existingIndex) payload prev
  else sort byStartedAtDesc (payload :: prev).

(** The listener on [command-center://event], while mounted. *)
Definition listener (event : CommandCenterEvent) (d : Data.t) : Data.t :=
  match event with
  | command_created payload
  | command_updated payload =>
      Data.mk (mergeCommand payload (Data.commands d)) (Data.history d)
        (Data.loading d) (Data.error d)
  | command_deleted id =>
      Data.mk (filter (λ item, CommandDefinition.id item ≠ id) (Data.commands d))
        (Data.history d) (Data.loading d) (Data.error d)
  | execution_started payload
  | execution_updated payload
  | execution_finished payload =>
      Data.mk (Data.commands d) (mergeExecution payload (Data.history d))
        (Data.loading d) (Data.error d)
  end.

(** The states after the events of the list, the first first. *)
Definition deliver (events : list CommandCenterEvent) (d : Data.t) : Data.t :=
  foldl (λ data event, listener event data) d events.

End console.

(** [invokeOrThrow]: outside the Tauri shell it throws before anything is
    invoked; inside, it comes to what the command invoked comes to. *)
Definition outsideTauri : string := "The server console must run inside the Tauri shell.".

Definition invokeOrThrow {T : Type} (isTauriRuntime : bool) (outcome : Thrown + T)
    : Thrown + T :=
  if negb isTauriRuntime then inl (ThrownError outsideTauri) else outcome.

(** [err instanceof Error ? err.message : fallback] *)
Definition thrownMessage (fallback : string) (err : Thrown) : string :=
  match err with
  | ThrownError message => message
  | ThrownValue => fallback
  end.

(** [refresh] with its two [invokeOrThrow] calls. *)
Definition refreshIn (isTauriRuntime : bool)
    (commandList : Thrown + list CommandDefinition.t)
    (historyList : Thrown + list ExecutionLog.t)
    (secondRejectsFirst : bool) (d : Data.t) : Data.t :=
  refresh (invokeOrThrow isTauriRuntime commandList)
          (invokeOrThrow isTauriRuntime historyList) secondRejectsFirst d.

(** The values of the command form. *)
Module CommandFormValues.
Record t := mk {
  id : option string;
  name : string;
  executable : string;
  args : string;
  description : option string;
  tags : option string;
  allowArguments : bool
}.
End CommandFormValues.

(** The [defaultValues] of [CommandForm], also what [reset] puts back when
    the command to edit changes. *)
Definition defaultValues (initialData : option CommandDefinition.t) : CommandFormValues.t :=
  match initialData with
  | Some data =>
      CommandFormValues.mk (Some (CommandDefinition.id data)) (CommandDefinition.name data)
        (CommandDefinition.executable data)
        (join lineFeed (CommandDefinition.args data))
        (Some (CommandDefinition.description data ?? ""))
        (Some (join ", " (CommandDefinition.tags data ?? [])))
        (CommandDefinition.allowArguments data)
  | None => CommandFormValues.mk None "" "" "" (Some "") (Some "") true
  end.

(** The argument of [create_or_update_command]. *)
Module Payload.
Record t := mk {
  id : option string;
  name : string;
  executable : string;
  args : list string;
  description : option string;
  tags : option (list string);
  allow_arguments : bool
}.
End Payload.

(** The payload [handleFormSubmit] builds from the values of the form. *)
Definition formPayload (values : CommandFormValues.t) : Payload.t :=
  Payload.mk (CommandFormValues.id values) (CommandFormValues.name values)
    (CommandFormValues.executable values)
    (List.filter truthy (trim <$> split "010" (CommandFormValues.args values)))
    (match CommandFormValues.description values with
     | Some description =>
         if negb (String.length (trim description) =? 0)%nat
         then Some (trim description) else None
     | None => None
     end)
    ((λ tags, List.filter truthy (trim <$> split "," tags))
       <$> CommandFormValues.tags values)
    (CommandFormValues.allowArguments values).

(** What is invoked in the Tauri backend. *)
Inductive Invocation :=
  | list_commands
  | list_history
  | create_or_update_command (payload : Payload.t)
  | delete_command (id : string)
  | execute_command (id : string) (args : option (list string)) (requested_by : string).

Definition invoked (isTauriRuntime : bool) (call : Invocation) : list Invocation :=
  if isTauriRuntime then [call] else [].

Inductive FormMode := create | edit.

(** The states of the [App] component, with those of
    [useCommandCenterData]. *)
Module AppState.
Record t := mk {
  data : Data.t;
  formMode : FormMode;
  selectedCommand : option CommandDefinition.t;
  executionMessage : option string;
  busyCommandId : option string;
  filter : string
}.
End AppState.

Section application.
Context `{Runtime}.

Definition setCommands (commands : list CommandDefinition.t) (d : Data.t) : Data.t :=
  Data.mk commands (Data.history d) (Data.loading d) (Data.error d).

(** [filteredCommands] *)
Definition filteredCommands (commands : list CommandDefinition.t) (filter : string)
    : list CommandDefinition.t :=
  if negb (truthy (trim filter)) then commands
  else
    let lower := toLowerCase filter in
    List.filter
      (λ command,
         includes (toLowerCase (CommandDefinition.name command)) lower
         || includes (toLowerCase (CommandDefinition.executable command)) lower
         || existsb (λ tag, includes (toLowerCase tag) lower)
              (CommandDefinition.tags command ?? []))
      commands.

(** [handleFormSubmit] *)
Definition handleFormSubmit (isTauriRuntime : bool) (values : CommandFormValues.t)
    (backend : Thrown + CommandDefinition.t) (a : AppState.t)
    : AppState.t * list Invocation :=
  let payload := formPayload values in
  (match invokeOrThrow isTauriRuntime backend with
   | inr saved =>
       let next :=
         let prev := Data.commands (AppState.data a) in
         let index :=
           findIndex (λ item, String.eqb (CommandDefinition.id item)
                                (CommandDefinition.id saved)) prev in
         if decide (0 ≤ index) then splice1 (Z.to_nat index) saved prev
         else saved :: prev in
       AppState.mk (setCommands next (AppState.data a)) create None
         (Some "Command saved successfully") (AppState.busyCommandId a)
         (AppState.filter a)
   | inl err =>
       AppState.mk (AppState.data a) (AppState.formMode a) (AppState.selectedCommand a)
         (Some (thrownMessage "Failed to save command" err)) (AppState.busyCommandId a)
         (AppState.filter a)
   end,
   invoked isTauriRuntime (create_or_update_command payload)).

(** [handleEdit] *)
Definition handleEdit (command : CommandDefinition.t) (a : AppState.t) : AppState.t :=
  AppState.mk (AppState.data a) edit (Some command) None (AppState.busyCommandId a)
    (AppState.filter a).

(** [handleDelete] *)
Definition handleDelete (isTauriRuntime : bool) (command : CommandDefinition.t)
    (backend : Thrown + unit) (a : AppState.t) : AppState.t * list Invocation :=
  (match invokeOrThrow isTauriRuntime backend with
   | inr _ =>
       let next :=
         filter (λ item, CommandDefinition.id item ≠ CommandDefinition.id command)
           (Data.commands (AppState.data a)) in
       let selectedIsDeleted :=
         match AppState.selectedCommand a with
         | Some selected =>
             String.eqb (CommandDefinition.id selected) (CommandDefinition.id command)
         | None => false
         end in
       AppState.mk (setCommands next (AppState.data a))
         (if selectedIsDeleted then create else AppState.formMode a)
         (if selectedIsDeleted then None else AppState.selectedCommand a)
         (Some "Command deleted") (AppState.busyCommandId a) (AppState.filter a)
   | inl err =>
       AppState.mk (AppState.data a) (AppState.formMode a) (AppState.selectedCommand a)
         (Some (thrownMessage "Failed to delete command" err)) (AppState.busyCommandId a)
         (AppState.filter a)
   end,
   invoked isTauriRuntime (delete_command (CommandDefinition.id command))).

(** [handleExecute] *)
Definition handleExecute (isTauriRuntime : bool) (command : CommandDefinition.t)
    (backend : Thrown + ExecutionLog.t) (a : AppState.t) : AppState.t * list Invocation :=
  (AppState.mk (AppState.data a) (AppState.formMode a) (AppState.selectedCommand a)
     (match invokeOrThrow isTauriRuntime backend with
      | inr record => Some ("Execution " +:+ ExecutionLog.id record +:+ " queued")
      | inl err => Some (thrownMessage "Failed to execute command" err)
      end)
     None (AppState.filter a),
   invoked isTauriRuntime
     (execute_command (CommandDefinition.id command)
        (if CommandDefinition.allowArguments command
         then Some (CommandDefinition.args command) else None)
        "local-admin")).

(** [resetForm] *)
Definition resetForm (a : AppState.t) : AppState.t :=
  AppState.mk (AppState.data a) create None None (AppState.busyCommandId a)
    (AppState.filter a).

(** The listener, on the states of the component. *)
Definition onEvent (event : CommandCenterEvent) (a : AppState.t) : AppState.t :=
  AppState.mk (listener event (AppState.data a)) (AppState.formMode a)
    (AppState.selectedCommand a) (AppState.executionMessage a) (AppState.busyCommandId a)
    (AppState.filter a).

End application.
End ServerConsole.

(** ** A reference runtime

    One runtime to evaluate the definitions on closed inputs: strings are
    collated by code unit, a timestamp is read in the date-time format of
    the language standard, and the JSON codec covers the stored shape for
    strings that need no escape. *)

Module Reference.

Fixpoint ordinalCompare (a b : string) : Z :=
  match a, b with
  | EmptyString, EmptyString => 0
  | EmptyString, String _ _ => -1
  | String _ _, EmptyString => 1
  | String c a', String d b' =>
      if (code c <? code d)%N then -1
      else if (code d <? code c)%N then 1
      else ordinalCompare a' b'
  end.

(** [dayjs(s).valueOf()] on a timestamp [YYYY-MM-DDTHH:mm:ssZ] or
    [YYYY-MM-DDTHH:mm:ss.sssZ]: a text that ends in [Z] goes from dayjs to
    [new Date] as it is, and [Date] reads this format, with the UTC
    designator, as the milliseconds since the epoch.  Other texts are read
    by rules of dayjs and of the engine that are not modelled; the
    reference runtime answers 0 on them, and the closed inputs hold
    none. *)
Definition digit (c : ascii) : option Z :=
  let n := code c in
  if ((48 <=? n) && (n <=? 57))%N then Some (Z.of_N n - 48) else None.

(** Exactly [n] digits. *)
Fixpoint digits (n : nat) (acc : Z) (s : string) : option (Z * string) :=
  match n with
  | O => Some (acc, s)
  | S n' =>
      match s with
      | String c s' => d ← digit c; digits n' (10 * acc + d) s'
      | EmptyString => None
      end
  end.

Definition expect (c : ascii) (s : string) : option string :=
  match s with
  | String d s' => if Ascii.eqb d c then Some s' else None
  | EmptyString => None
  end.

Definition isLeapYear (y : Z) : bool :=
  (y mod 4 =? 0) && (negb (y mod 100 =? 0) || (y mod 400 =? 0)).

Definition daysInMonth (y m : Z) : Z :=
  if m =? 2 then (if isLeapYear y then 29 else 28)
  else if (m =? 4) || (m =? 6) || (m =? 9) || (m =? 11) then 30
  else 31.

(** The days from 1 January 1970 to the day [d] of the month [m] of the
    year [y] of the proleptic Gregorian calendar. *)
Definition daysFromCivil (y m d : Z) : Z :=
  let y' := if m <=? 2 then y - 1 else y in
  let era := y' / 400 in
  let yearOfEra := y' - era * 400 in
  let dayOfYear := (153 * (if 2 <? m then m - 3 else m + 9) + 2) / 5 + d - 1 in
  let dayOfEra := yearOfEra * 365 + yearOfEra / 4 - yearOfEra / 100 + dayOfYear in
  era * 146097 + dayOfEra - 719468.

Definition parseInstant (s : string) : option Z :=
  '(y, s) ← digits 4 0 s;
  s ← expect "-" s;
  '(m, s) ← digits 2 0 s;
  s ← expect "-" s;
  '(d, s) ← digits 2 0 s;
  s ← expect "T" s;
  '(h, s) ← digits 2 0 s;
  s ← expect ":" s;
  '(min, s) ← digits 2 0 s;
  s ← expect ":" s;
  '(sec, s) ← digits 2 0 s;
  '(ms, s) ← match expect "." s with
             | Some s' => digits 3 0 s'
             | None => Some (0, s)
             end;
  if String.eqb s "Z"
     && (1 <=? m) && (m <=? 12) && (1 <=? d) && (d <=? daysInMonth y m)
     && (h <=? 23) && (min <=? 59) && (sec <=? 59)
  then Some ((((daysFromCivil y m d * 24 + h) * 60 + min) * 60 + sec) * 1000 + ms)
  else None.

Definition epochMillis (s : string) : Z := default 0 (parseInstant s).

Definition quote : string := String (ascii_of_N 34) EmptyString.

Definition member (name value : string) : string :=
  quote +:+ name +:+ quote +:+ ":" +:+ quote +:+ value +:+ quote.

Definition stringify (r : StoredSession.t) : string :=
  "{" +:+
  join "," (omap id [member "serverUrl" <$> StoredSession.serverUrl r;
                     member "token" <$> StoredSession.token r]) +:+
  "}".

Definition afterPrefix (p s : string) : option string :=
  if String.prefix p s
  then Some (String.substring (String.length p) (String.length s - String.length p) s)
  else None.

Fixpoint untilQuote (s : string) : option (string * string) :=
  match s with
  | EmptyString => None
  | String c s' =>
      if Ascii.eqb c (ascii_of_N 34) then Some (EmptyString, s')
      else '(v, r) ← untilQuote s'; Some (String c v, r)
  end.

Definition readMember (name s : string) : option string * string :=
  match afterPrefix (quote +:+ name +:+ quote +:+ ":" +:+ quote) s ≫= untilQuote with
  | Some (v, r) => (Some v, r)
  | None => (None, s)
  end.

Definition parse (s : string) : option (option StoredSession.t) :=
  if String.eqb s "null" then Some None
  else
    body ← afterPrefix "{" s;
    let '(serverUrl, r1) := readMember "serverUrl" body in
    let r2 := afterPrefix "," r1 ?? r1 in
    let '(token, r3) := readMember "token" r2 in
    if String.eqb r3 "}" then Some (Some (StoredSession.mk serverUrl token)) else None.

#[export] Instance ordinalCompare_consistent : ConsistentComparator ordinalCompare.
Proof.
  split.
  - intros a. induction a as [|c a IH]; intros [|d b]; simpl; try lia.
    destruct (N.ltb_spec (code c) (code d)), (N.ltb_spec (code d) (code c));
      try lia. apply IH.
  - intros a. induction a as [|x a IH]; intros [|y b] [|z c]; simpl; try lia.
    destruct (N.ltb_spec (code x) (code y)), (N.ltb_spec (code y) (code x)),
      (N.ltb_spec (code y) (code z)), (N.ltb_spec (code z) (code y)),
      (N.ltb_spec (code x) (code z)), (N.ltb_spec (code z) (code x));
      try lia. apply IH.
Qed.

Definition runtime : Runtime :=
  {| localeCompare := ordinalCompare;
     dayjs_valueOf := epochMillis;
     JSON_stringify := stringify;
     JSON_parse := parse;
     JSON_parse_empty := eq_refl |}.

End Reference.

(** ** Closed inputs

    Data for the closed instances below, read under the reference runtime. *)

Module Examples.

Definition fixedCommand : Client.CommandDefinition.t :=
  Client.CommandDefinition.mk "c1" "Restart" "/usr/bin/systemctl" ["a"; "b"] None []
    false "2024-01-01T00:00:00Z" "2024-01-01T00:00:00Z".

Definition command (id name : string) : Client.CommandDefinition.t :=
  Client.CommandDefinition.mk id name "/bin/true" [] None [] true
    "2024-01-01T00:00:00Z" "2024-01-01T00:00:00Z".


(** [n] in decimal, with zeros in front up to [width] digits. *)
Definition zeroPadded (width : nat) (n : Z) : string :=
  let text := pretty n in
  String.concat "" (replicate (width - String.length text) "0") +:+ text.

(** The timestamp of the instant [ms] milliseconds into 1 January 2024,
    UTC, for [0 ≤ ms < 60000]. *)
Definition instant (ms : Z) : string :=
  "2024-01-01T00:00:" +:+ zeroPadded 2 (ms / 1000) +:+ "."
  +:+ zeroPadded 3 (ms mod 1000) +:+ "Z".

(** The execution [i], started at the instant [startedAt]. *)
Definition log (i : nat) (status : Client.ExecutionStatus) (startedAt : Z)
    : Client.ExecutionLog.t :=
  Client.ExecutionLog.mk (pretty i) "c1" "Restart" "admin" status "" None []
    (instant startedAt) None.

Definition queued : Client.ExecutionLog.t :=
  Client.ExecutionLog.mk "e1" "c1" "Restart" "admin" Client.pending "" None ["a,b"]
    "2024-01-01T00:00:00.000Z" None.

Definition signedOut : Client.StoreState.t :=
  Client.StoreState.mk "" "" Client.disconnected false false None [] [].

Definition signedIn : Client.StoreState.t :=
  Client.StoreState.mk "https://cc.local:6280" "t0k" Client.connected true false None
    [fixedCommand] [].

(** A browser that kept the session of [signedIn]. *)
Definition browser : Window :=
  Some {[ Client.SESSION_STORAGE_KEY :=
            Reference.stringify
              (StoredSession.mk (Some "https://cc.local:6280") (Some "t0k")) ]}.

Definition unauthorized : JsError :=
  AxiosError "Request failed with status code 401" (Some "Invalid credentials")
    (Some "Unauthorized").

(** [n] executions, each started a millisecond after the one before. *)
Definition burst (n : nat) : list Client.ExecutionLog.t :=
  (λ i, log i Client.running (1000 + Z.of_nat i)) <$> seq 1 n.

(** A burst of 101 executions, after which the newest of them comes again
    with a start in the past. *)
Definition regress : list Client.ServerEvent :=
  (Client.execution_started <$> burst 101)
  ++ [Client.execution_updated (log 101 Client.running 0)].

(** A burst of 101 executions, after which the fiftieth finishes. *)
Definition overflow : list Client.ServerEvent :=
  (Client.execution_started <$> burst 101)
  ++ [Client.execution_finished (log 50 Client.success 1050)].

(** An execution starts and finishes while a command is renamed. *)
Definition session : list Client.ServerEvent :=
  [Client.execution_started (log 1 Client.pending 1000);
   Client.command_updated (command "c1" "restart all");
   Client.execution_started (log 2 Client.pending 1000);
   Client.execution_finished (log 1 Client.success 1000)].

Definition consoleCommand (id name : string) : ServerConsole.CommandDefinition.t :=
  ServerConsole.CommandDefinition.mk id name "/bin/true" [] None None true
    "2024-01-01T00:00:00Z" "2024-01-01T00:00:00Z".

Definition consoleLog (i : nat) (startedAt : Z) : ServerConsole.ExecutionLog.t :=
  ServerConsole.ExecutionLog.mk (pretty i) "c1" "Restart" "local-admin"
    ServerConsole.running "" None [] (instant startedAt) None.

Definition consoleEmpty : ServerConsole.Data.t := ServerConsole.Data.mk [] [] true None.

Definition consoleBurst (n : nat) : list ServerConsole.CommandCenterEvent :=
  (λ i, ServerConsole.execution_started (consoleLog i (1000 + Z.of_nat i))) <$> seq 1 n.

Definition consoleSession : list ServerConsole.CommandCenterEvent :=
  [ServerConsole.command_created (consoleCommand "c1" "alpha");
   ServerConsole.command_created (consoleCommand "c2" "beta");
   ServerConsole.execution_started (consoleLog 1 1000);
   ServerConsole.execution_finished (consoleLog 1 1000)].

End Examples.

(** * The vocabulary of the properties *)

(** The normalization of a server URL as the specification words it: trim,
    strip the trailing slashes, and prefix [https://] when no [http://] or
    [https://] scheme is present. *)
Definition normalizeBySpec (input : string) : string :=
  let stripped := stripTrailingSlashes (trim input) in
  if hasHttpScheme stripped then stripped else "https://" +:+ stripped.

(** What the language standard asks of [l.sort(cmp)], here [l']: it is
    sorted, and the elements that the comparator holds equal to one another
    stand in it in the order they have in [l]. *)
Definition equivalent {A : Type} (cmp : A → A → Z) (x y : A) : Prop :=
  cmp x y ≤ 0 ∧ cmp y x ≤ 0.

Definition stableSortOf {A : Type} (cmp : A → A → Z) (l l' : list A) : Prop :=
  StronglySorted (precedes cmp) l' ∧
  ∀ x, filter (equivalent cmp x) l' = filter (equivalent cmp x) l.

(** The entries of [l] under the key of [p]: at most one of them. *)
Definition atMostOne {A K : Type} `{!EqDecision K} (key : A → K) (p : A) (l : list A)
    : Prop :=
  (length (filter (λ x, key x = key p) l) ≤ 1)%nat.

(** The shape shared by the two updaters of the server console: the entry
    with the key of [p] is replaced where it stands, and when there is none
    [p] is put in front and the array is passed through [g]. *)
Definition replaceOrAdd {A : Type} (key : A → string) (g : list A → list A)
    (p : A) (l : list A) : list A :=
  let existingIndex := findIndex (λ item, String.eqb (key item) (key p)) l in
  if decide (0 ≤ existingIndex) then splice1 (Z.to_nat existingIndex) p l
  else g (p :: l).

(** [c] occurs in [s]. *)
Fixpoint occurs (c : ascii) (s : string) : bool :=
  match s with
  | EmptyString => false
  | String d s' => Ascii.eqb d c || occurs c s'
  end.

(** An entry that a text field of one entry per separator gives back as it
    is: not empty, with no white space around it and without the
    separator. *)
Definition plainEntry (sep : ascii) (a : string) : Prop :=
  a ≠ "" ∧ trim a = a ∧ occurs sep a = false.

(** The logs that the execution events of the server console carry, in
    order. *)
Definition consoleExecutionLogs (events : list ServerConsole.CommandCenterEvent)
    : list ServerConsole.ExecutionLog.t :=
  omap (λ event,
          match event with
          | ServerConsole.execution_started payload
          | ServerConsole.execution_updated payload
          | ServerConsole.execution_finished payload => Some payload
          | _ => None
          end) events.

Section vocabulary.
Context `{Runtime}.

(** Sorted ascending by case-insensitive name; sorted by [startedAt]
    descending. *)
Definition sortedByName {A : Type} (name : A → string) (l : list A) : Prop :=
  StronglySorted
    (λ a b, localeCompare (toLowerCase (name a)) (toLowerCase (name b)) ≤ 0) l.

Definition sortedByStartedAtDesc {A : Type} (startedAt : A → string) (l : list A) : Prop :=
  StronglySorted (λ a b, dayjs_valueOf (startedAt b) ≤ dayjs_valueOf (startedAt a)) l.

(** The invariant of the client store. *)
Definition ordered (s : Client.StoreState.t) : Prop :=
  sortedByName Client.CommandDefinition.name (Client.StoreState.commands s) ∧
  sortedByStartedAtDesc Client.ExecutionLog.startedAt (Client.StoreState.history s).

(** The logs that the execution events of a sequence carry, in order. *)
Definition executionLogs (events : list Client.ServerEvent) : list Client.ExecutionLog.t :=
  omap (λ event,
          match event with
          | Client.execution_started payload
          | Client.execution_updated payload
          | Client.execution_finished payload => Some payload
          | _ => None
          end) events.

(** The latest version of every entry: each delivered log takes the place
    of the known entry of its id. *)
Definition latestVersions (known logs : list Client.ExecutionLog.t)
    : list Client.ExecutionLog.t :=
  foldl (λ acc payload,
           payload :: filter (λ x, Client.ExecutionLog.id x
                                   ≠ Client.ExecutionLog.id payload) acc)
        known logs.

(** No delivered log starts earlier than a version of the same id known or
    delivered before it. *)
Fixpoint startedAtNeverMovesBack (known logs : list Client.ExecutionLog.t) : Prop :=
  match logs with
  | [] => True
  | payload :: logs' =>
      Forall (λ q, Client.ExecutionLog.id q = Client.ExecutionLog.id payload →
                   dayjs_valueOf (Client.ExecutionLog.startedAt q)
                   ≤ dayjs_valueOf (Client.ExecutionLog.startedAt payload)) known ∧
      startedAtNeverMovesBack (payload :: known) logs'
  end.

#[global] Instance startedAtNeverMovesBack_dec known logs :
  Decision (startedAtNeverMovesBack known logs).
Proof.
  revert known. induction logs as [|payload logs IH]; intros known; simpl; apply _.
Defined.

(** The history branch of [integrateEvent], on the collection. *)
Definition historyStep (history : list Client.ExecutionLog.t)
    (payload : Client.ExecutionLog.t) : list Client.ExecutionLog.t :=
  take 100
    (sort Client.byStartedAtDesc
       (payload :: filter (λ item, Client.ExecutionLog.id item
                                   ≠ Client.ExecutionLog.id payload) history)).

(** C2 as it is worded, for a history and the logs delivered: at most
    [limit] entries, and no delivered log that is left out started later
    than an entry that is held. *)
Definition holdsMostRecent (limit : nat) (history delivered : list Client.ExecutionLog.t)
    : Prop :=
  (length history ≤ limit)%nat ∧
  ∀ held missed,
    held ∈ history → missed ∈ delivered →
    Client.ExecutionLog.id missed ∉ Client.ExecutionLog.id <$> history →
    dayjs_valueOf (Client.ExecutionLog.startedAt missed)
    ≤ dayjs_valueOf (Client.ExecutionLog.startedAt held).

(** The persisted session record with a non-empty token, when there is
    one: its server URL and its token. *)
Definition persistedSession (w : Window) : option (string * string) :=
  stored ← getItem Client.SESSION_STORAGE_KEY w;
  parsed ← JSON_parse stored;
  record ← parsed;
  token ← StoredSession.token record;
  if decide (token = "") then None
  else Some (StoredSession.serverUrl record ?? "", token).

End vocabulary.

(** * Facts about arrays *)

Section sort_facts.
Context {A : Type} (cmp : A → A → Z) `{!ConsistentComparator cmp}.
Implicit Types (x y : A) (l : list A).

Lemma sort_insert_stop x y l :
  cmp x y ≤ 0 → sort_insert cmp x (y :: l) = x :: y :: l.
Proof. intros Hxy; simpl. by rewrite decide_True. Qed.

(** Where the inserted element lands. *)
Lemma sort_insert_split x l :
  ∃ l1 l2, l = l1 ++ l2 ∧ sort_insert cmp x l = l1 ++ x :: l2 ∧
           Forall (λ y, ¬ cmp x y ≤ 0) l1 ∧
           (∀ y l2', l2 = y :: l2' → cmp x y ≤ 0).
Proof.
  induction l as [|y l IH].
  - exists [], []. by repeat split.
  - simpl. destruct (decide (cmp x y ≤ 0)) as [Hxy|Hxy].
    + exists [], (y :: l). repeat split; [done|]. by intros ? ? [= <- _].
    + destruct IH as (l1 & l2 & -> & -> & Hl1 & Hl2).
      exists (y :: l1), l2. repeat split; [by constructor|done].
Qed.

Lemma sort_insert_perm x l : sort_insert cmp x l ≡ₚ x :: l.
Proof.
  induction l as [|y l IH]; [done|]. simpl.
  destruct (decide _); [done|]. by rewrite IH, Permutation_swap.
Qed.

Lemma sort_perm l : sort cmp l ≡ₚ l.
Proof.
  induction l as [|x l IH]; [done|]. simpl.
  by rewrite sort_insert_perm, IH.
Qed.

Lemma elem_of_sort x l : x ∈ sort cmp l ↔ x ∈ l.
Proof. by rewrite sort_perm. Qed.

Lemma sort_insert_sorted x l :
  StronglySorted (precedes cmp) l →
  StronglySorted (precedes cmp) (sort_insert cmp x l).
Proof.
  induction 1 as [|y l Hl IH Hy]; simpl.
  - repeat constructor.
  - destruct (decide (cmp x y ≤ 0)) as [Hxy|Hxy].
    + constructor; [by constructor|].
      constructor; [done|].
      eapply Forall_impl; [exact Hy|]. intros z Hz. by eapply cmp_trans.
    + constructor; [done|].
      rewrite sort_insert_perm. constructor; [|done].
      destruct (cmp_total x y); [done|done].
Qed.

Lemma sort_sorted l : StronglySorted (precedes cmp) (sort cmp l).
Proof.
  induction l as [|x l IH]; simpl; [constructor|by apply sort_insert_sorted].
Qed.

(** A sorted array is left as it is. *)
Lemma sort_id l : StronglySorted (precedes cmp) l → sort cmp l = l.
Proof.
  induction 1 as [|x l Hl IH Hx]; [done|]. simpl. rewrite IH.
  destruct Hx as [|y l Hxy _]; [done|]. by apply sort_insert_stop.
Qed.

Lemma sort_idemp l : sort cmp (sort cmp l) = sort cmp l.
Proof. apply sort_id, sort_sorted. Qed.

Lemma sorted_filter (P : A → Prop) `{!∀ x, Decision (P x)} l :
  StronglySorted (precedes cmp) l →
  StronglySorted (precedes cmp) (filter P l).
Proof.
  induction 1 as [|x l Hl IH Hx]; [constructor|].
  rewrite filter_cons. destruct (decide (P x)); [|done].
  constructor; [done|].
  apply Forall_forall. intros y [_ Hy]%list_elem_of_filter.
  by eapply Forall_forall in Hx.
Qed.

Lemma sorted_take n l :
  StronglySorted (precedes cmp) l →
  StronglySorted (precedes cmp) (take n l).
Proof.
  intros Hl. rewrite <- (take_drop n l) in Hl.
  by apply StronglySorted_app_1_l in Hl.
Qed.

Lemma filter_sort_insert (P : A → Prop) `{!∀ x, Decision (P x)} x l :
  StronglySorted (precedes cmp) l →
  filter P (sort_insert cmp x l) =
    if decide (P x) then sort_insert cmp x (filter P l) else filter P l.
Proof.
  induction 1 as [|y l Hl IH Hy]; simpl.
  - rewrite filter_cons, filter_nil. by destruct (decide (P x)).
  - destruct (decide (cmp x y ≤ 0)) as [Hxy|Hxy].
    + rewrite (filter_cons _ x). destruct (decide (P x)) as [HP|HP]; [|done].
      assert (Hall : Forall (λ z, cmp x z ≤ 0) (filter P (y :: l))).
      { apply Forall_forall. intros z [_ Hz]%list_elem_of_filter.
        apply elem_of_cons in Hz as [->|Hz]; [done|].
        eapply cmp_trans; [exact Hxy|]. by eapply Forall_forall in Hy. }
      destruct Hall as [|z l' Hz _]; [done|]. by rewrite sort_insert_stop.
    + rewrite (filter_cons _ y), IH, (filter_cons _ y).
      destruct (decide (P x)), (decide (P y)); simpl; try done.
      by rewrite decide_False.
Qed.

(** Filtering commutes with sorting. *)
Lemma filter_sort (P : A → Prop) `{!∀ x, Decision (P x)} l :
  filter P (sort cmp l) = sort cmp (filter P l).
Proof.
  induction l as [|x l IH]; [done|]. simpl.
  rewrite filter_sort_insert by apply sort_sorted.
  rewrite filter_cons, IH. by destruct (decide (P x)).
Qed.

(** [sort] is the stable sort, and there is no other: whatever algorithm an
    engine runs, under a consistent comparator it returns this array. *)
Lemma equivalent_sorted x l :
  Forall (equivalent cmp x) l → StronglySorted (precedes cmp) l.
Proof.
  induction 1 as [|y l [Hxy Hyx] Hl IH]; constructor; [done|].
  eapply Forall_impl; [exact Hl|]. intros z [Hxz _].
  by eapply cmp_trans.
Qed.

Lemma sort_stableSortOf l : stableSortOf cmp l (sort cmp l).
Proof.
  split; [apply sort_sorted|]. intros x. rewrite filter_sort.
  apply sort_id, (equivalent_sorted x), Forall_forall.
  by intros y [? _]%list_elem_of_filter.
Qed.

Lemma stableSortOf_unique l l1 l2 :
  stableSortOf cmp l l1 → stableSortOf cmp l l2 → l1 = l2.
Proof.
  intros [Hs1 Hf1] [Hs2 Hf2].
  assert (Hf : ∀ x, filter (equivalent cmp x) l1 = filter (equivalent cmp x) l2)
    by (intros x; by rewrite Hf1, Hf2).
  assert (Hrefl : ∀ x, equivalent cmp x x)
    by (intros x; split; by destruct (cmp_total x x)).
  clear Hf1 Hf2. revert l2 Hs2 Hf.
  induction Hs1 as [|a l1 Hs1 IH Ha]; intros [|b l2] Hs2 Hf; [done| | |].
  - specialize (Hf b). by rewrite (filter_cons_True _ b l2) in Hf by apply Hrefl.
  - specialize (Hf a). by rewrite (filter_cons_True _ a l1) in Hf by apply Hrefl.
  - apply StronglySorted_inv in Hs2 as [Hs2 Hb].
    assert (Hab : equivalent cmp a b).
    { split.
      - pose proof (Hf b) as Hfb.
        rewrite (filter_cons_True _ b l2) in Hfb by apply Hrefl.
        assert (Hin : b ∈ filter (equivalent cmp b) (a :: l1))
          by (rewrite Hfb; left).
        apply list_elem_of_filter in Hin as [_ [->|Hin]%elem_of_cons];
          [apply Hrefl|exact (proj1 (Forall_forall _ _) Ha b Hin)].
      - pose proof (Hf a) as Hfa.
        rewrite (filter_cons_True _ a l1) in Hfa by apply Hrefl.
        assert (Hin : a ∈ filter (equivalent cmp a) (b :: l2))
          by (rewrite <- Hfa; left).
        apply list_elem_of_filter in Hin as [_ [->|Hin]%elem_of_cons];
          [apply Hrefl|exact (proj1 (Forall_forall _ _) Hb a Hin)]. }
    pose proof (Hf a) as Hfa.
    rewrite (filter_cons_True _ a l1), (filter_cons_True _ b l2) in Hfa
      by (done || apply Hrefl).
    injection Hfa as <- _.
    f_equal. apply IH; [done|]. intros x. specialize (Hf x).
    rewrite !(filter_cons _ a) in Hf. destruct (decide (equivalent cmp x a)); [|done].
    by injection Hf.
Qed.

Lemma stableSortOf_sort l l' : stableSortOf cmp l l' → l' = sort cmp l.
Proof. intros Hl'. eapply stableSortOf_unique; [exact Hl'|apply sort_stableSortOf]. Qed.
End sort_facts.

Lemma filter_all {A : Type} (P : A → Prop) `{!∀ x, Decision (P x)} (l : list A) :
  Forall P l → filter P l = l.
Proof. induction 1; [done|]. rewrite filter_cons_True by done. by f_equal. Qed.

Lemma filter_none {A : Type} (P : A → Prop) `{!∀ x, Decision (P x)} (l : list A) :
  Forall (λ x, ¬ P x) l → filter P l = [].
Proof. induction 1; [done|]. by rewrite filter_cons_False. Qed.

Lemma filter_short_Forall {A : Type} (P : A → Prop) `{!∀ x, Decision (P x)}
    (l : list A) :
  length (filter P l) = 0%nat → Forall (λ x, ¬ P x) l.
Proof.
  intros Hlen. apply Forall_forall. intros x Hx HP.
  assert (Hin : x ∈ filter P l) by by apply list_elem_of_filter.
  destruct (filter P l); [by apply elem_of_nil in Hin|done].
Qed.

(** ** Replacing an entry by key in a sorted window *)

Section upsert_facts.
Context {A K : Type} `{!EqDecision K} (key : A → K).
Context (cmp : A → A → Z) `{!ConsistentComparator cmp}.
Implicit Types (p x y : A) (l : list A) (n : nat).

Lemma cmp_refl x : cmp x x ≤ 0.
Proof. by destruct (cmp_total x x). Qed.

Lemma sort_insert_front p l :
  Forall (λ y, cmp p y ≤ 0) l → sort_insert cmp p l = p :: l.
Proof. destruct 1; [done|]. by apply sort_insert_stop. Qed.

Lemma filter_others_others p l :
  filter (λ x, key x ≠ key p) (filter (λ x, key x ≠ key p) l)
  = filter (λ x, key x ≠ key p) l.
Proof.
  induction l as [|x l IH]; [done|]. rewrite (filter_cons _ x).
  destruct (decide (key x ≠ key p)); [|done].
  by rewrite filter_cons_True, IH.
Qed.

Lemma filter_others_id p l :
  Forall (λ x, key x ≠ key p) l → filter (λ x, key x ≠ key p) l = l.
Proof. apply filter_all. Qed.

(** Replace and sort again: the second application changes nothing. *)
Lemma upsert_sort_idemp p l :
  sort cmp (p :: filter (λ x, key x ≠ key p)
                   (sort cmp (p :: filter (λ x, key x ≠ key p) l)))
  = sort cmp (p :: filter (λ x, key x ≠ key p) l).
Proof.
  rewrite (filter_sort cmp), filter_cons_False by (by intros []).
  rewrite filter_others_others. simpl. by rewrite (sort_idemp cmp).
Qed.

Lemma atMostOne_cons_eq p x l :
  key x = key p → atMostOne key p (x :: l) → Forall (λ y, key y ≠ key p) l.
Proof.
  unfold atMostOne. intros Hx. rewrite filter_cons_True by done. simpl.
  intros Hlen. apply (filter_short_Forall (λ x, key x = key p)). lia.
Qed.

Lemma atMostOne_cons_ne p x l :
  key x ≠ key p → atMostOne key p (x :: l) → atMostOne key p l.
Proof. unfold atMostOne. intros Hx. by rewrite filter_cons_False. Qed.

Lemma atMostOne_NoDup p l : NoDup (key <$> l) → atMostOne key p l.
Proof.
  unfold atMostOne. induction l as [|x l IH]; [simpl; lia|].
  rewrite fmap_cons, NoDup_cons. intros [Hx Hl].
  rewrite filter_cons. destruct (decide (key x = key p)) as [Heq|]; [|by apply IH].
  assert (Hnil : filter (λ y, key y = key p) l = []).
  { apply filter_none, Forall_forall. intros y Hy Hk. apply Hx.
    rewrite Heq, <- Hk. by apply list_elem_of_fmap_2. }
  rewrite Hnil. simpl. lia.
Qed.

Lemma take_filter_take_S (P : A → Prop) `{!∀ x, Decision (P x)} n l :
  (length (filter (λ x, ¬ P x) l) ≤ 1)%nat →
  take n (filter P (take (S n) l)) = take n (filter P l).
Proof.
  revert n. induction l as [|y l IH]; intros n Hlen; [by destruct n|].
  rewrite firstn_cons, !(filter_cons P y).
  rewrite (filter_cons _ y) in Hlen.
  destruct (decide (P y)) as [HP|HP].
  - rewrite decide_False in Hlen by tauto.
    destruct n as [|n]; [done|]. simpl. by rewrite IH.
  - rewrite decide_True in Hlen by done. simpl in Hlen.
    assert (Hall : Forall P l).
    { eapply Forall_impl; [apply (filter_short_Forall (λ x, ¬ P x)); lia|].
      intros z Hz. simpl in Hz. by destruct (decide (P z)). }
    rewrite !filter_all; [by rewrite take_idemp|done|by apply Forall_take].
Qed.

(** Replacing the entry of [p] in the first [n] entries of a sorted array
    and keeping [n] comes to the same as replacing it in the whole array and
    keeping [n], as long as [p] does not sort after the entry it replaces. *)
Lemma take_upsert_take n p l :
  StronglySorted (precedes cmp) l →
  atMostOne key p l →
  (∀ q, q ∈ l → key q = key p → cmp p q ≤ 0) →
  take n (sort_insert cmp p (filter (λ x, key x ≠ key p) (take n l)))
  = take n (sort_insert cmp p (filter (λ x, key x ≠ key p) l)).
Proof.
  intros Hsorted. revert n.
  induction Hsorted as [|x l Hl IH Hx]; intros n Hone Hle; [by destruct n|].
  destruct n as [|n]; [done|]. rewrite firstn_cons.
  destruct (decide (key x = key p)) as [Heq|Hne].
  - pose proof (atMostOne_cons_eq _ _ _ Heq Hone) as Hfresh.
    rewrite !filter_cons_False by tauto.
    rewrite !filter_others_id by (done || by apply Forall_take).
    assert (Hfront : Forall (λ y, cmp p y ≤ 0) l).
    { eapply Forall_impl; [exact Hx|]. intros y Hy.
      eapply cmp_trans; [|exact Hy]. apply Hle; [left|done]. }
    rewrite !sort_insert_front by (done || by apply Forall_take).
    simpl. by rewrite take_idemp.
  - rewrite !filter_cons_True by done. simpl.
    destruct (decide (cmp p x ≤ 0)) as [Hpx|Hpx].
    + simpl. f_equal. destruct n as [|n]; [done|]. simpl. f_equal.
      apply take_filter_take_S.
      apply atMostOne_cons_ne in Hone; [|done].
      unfold atMostOne in Hone.
      erewrite list_filter_iff; [exact Hone|].
      intros y; simpl. destruct (decide (key y = key p)); tauto.
    + simpl. f_equal. apply IH.
      * by eapply atMostOne_cons_ne.
      * intros q Hq. apply Hle. by right.
Qed.

(** Replace, sort and keep [n], twice. *)
Lemma upsert_take_idemp n p l :
  take n (sort cmp (p :: filter (λ x, key x ≠ key p)
                          (take n (sort cmp (p :: filter (λ x, key x ≠ key p) l)))))
  = take n (sort cmp (p :: filter (λ x, key x ≠ key p) l)).
Proof.
  set (s := sort cmp (p :: filter _ l)). simpl.
  assert (Hs : StronglySorted (precedes cmp) s) by apply (sort_sorted cmp).
  rewrite (sort_id cmp (filter _ (take n s)))
    by by apply sorted_filter, sorted_take.
  assert (Hkeys : filter (λ x, key x = key p) s ≡ₚ [p]).
  { unfold s. rewrite (sort_perm cmp), filter_cons_True by done.
    rewrite filter_none; [done|].
    apply Forall_forall. intros y [? _]%list_elem_of_filter. tauto. }
  rewrite take_upsert_take; [|done| |].
  - unfold s at 1. rewrite (filter_sort cmp), filter_cons_False by (by intros []).
    rewrite filter_others_others. done.
  - unfold atMostOne. by rewrite Hkeys.
  - intros q Hq Hk.
    assert (Hin : q ∈ filter (λ x, key x = key p) s) by by apply list_elem_of_filter.
    rewrite Hkeys in Hin. apply list_elem_of_singleton in Hin as ->. apply cmp_refl.
Qed.
End upsert_facts.

(** ** [findIndex] and [splice] *)

Section findIndex_facts.
Context {A : Type}.
Implicit Types (f : A → bool) (l : list A).

Lemma findIndex_found f l1 x l2 :
  Forall (λ y, f y = false) l1 → f x = true →
  findIndex f (l1 ++ x :: l2) = Z.of_nat (length l1).
Proof.
  intros Hl1 Hx. induction Hl1 as [|y l1 Hy _ IH]; simpl; [by rewrite Hx|].
  rewrite Hy, IH. rewrite decide_True by lia. lia.
Qed.

Lemma findIndex_cases f l :
  (Forall (λ x, f x = false) l ∧ findIndex f l = -1) ∨
  (∃ l1 x l2, l = l1 ++ x :: l2 ∧ Forall (λ y, f y = false) l1 ∧ f x = true ∧
              findIndex f l = Z.of_nat (length l1)).
Proof.
  induction l as [|x l IH]; [by left|].
  destruct (f x) eqn:Hx.
  - right. exists [], x, l. simpl. by rewrite Hx.
  - destruct IH as [[Hall Hi]|(l1 & y & l2 & -> & Hl1 & Hy & Hi)].
    + left. split; [by constructor|]. simpl. rewrite Hx, Hi.
      by rewrite decide_False by lia.
    + right. exists (x :: l1), y, l2. split; [done|].
      split; [by constructor|]. split; [done|].
      by apply (findIndex_found f (x :: l1)); [constructor|].
Qed.

Lemma splice1_middle l1 x l2 (item : A) :
  splice1 (length l1) item (l1 ++ x :: l2) = l1 ++ item :: l2.
Proof.
  unfold splice1. rewrite take_app_length. do 2 f_equal.
  rewrite cons_middle, (assoc_L (++)).
  apply drop_app_length'. rewrite length_app. simpl. lia.
Qed.
End findIndex_facts.

(** ** Replace in place, or add *)

Section in_place_facts.
Context {A : Type} (key : A → string) (g : list A → list A).
Implicit Types (p x : A) (l : list A).

Lemma replaceOrAdd_cases p l :
  (Forall (λ x, key x ≠ key p) l ∧ replaceOrAdd key g p l = g (p :: l)) ∨
  (∃ l1 x l2, l = l1 ++ x :: l2 ∧ Forall (λ y, key y ≠ key p) l1 ∧
              key x = key p ∧ replaceOrAdd key g p l = l1 ++ p :: l2).
Proof.
  unfold replaceOrAdd.
  destruct (findIndex_cases (λ item, String.eqb (key item) (key p)) l)
    as [[Hall ->]|(l1 & x & l2 & -> & Hl1 & Hx & ->)].
  - left. split; [|done].
    eapply Forall_impl; [exact Hall|]. intros x Hx. simpl in Hx.
    by apply String.eqb_neq.
  - right. exists l1, x, l2. split; [done|]. split.
    { eapply Forall_impl; [exact Hl1|]. intros y Hy. simpl in Hy.
      by apply String.eqb_neq. }
    split; [by apply String.eqb_eq|].
    rewrite decide_True by lia. by rewrite Nat2Z.id, splice1_middle.
Qed.

Lemma replaceOrAdd_present p l1 x l2 :
  Forall (λ y, key y ≠ key p) l1 → key x = key p →
  replaceOrAdd key g p (l1 ++ x :: l2) = l1 ++ p :: l2.
Proof.
  intros Hl1 Hx. unfold replaceOrAdd.
  rewrite (findIndex_found _ l1 x l2).
  - rewrite decide_True by lia. by rewrite Nat2Z.id, splice1_middle.
  - eapply Forall_impl; [exact Hl1|]. intros y Hy. by apply String.eqb_neq.
  - by apply String.eqb_eq.
Qed.

(** Merging the same entry twice. *)
Lemma replaceOrAdd_idemp p l :
  (∀ l', Forall (λ x, key x ≠ key p) l' →
         ∃ l1 l2, g (p :: l') = l1 ++ p :: l2 ∧ Forall (λ y, key y ≠ key p) l1) →
  replaceOrAdd key g p (replaceOrAdd key g p l) = replaceOrAdd key g p l.
Proof.
  intros Hg.
  destruct (replaceOrAdd_cases p l) as [[Hall ->]|(l1 & x & l2 & -> & Hl1 & Hx & ->)].
  - destruct (Hg l Hall) as (l1 & l2 & -> & Hl1). by apply replaceOrAdd_present.
  - by apply replaceOrAdd_present.
Qed.

(** Keys stay pairwise distinct. *)
Lemma replaceOrAdd_NoDup p l :
  (∀ l', g (p :: l') ≡ₚ p :: l') →
  NoDup (key <$> l) → NoDup (key <$> replaceOrAdd key g p l).
Proof.
  intros Hg Hl.
  destruct (replaceOrAdd_cases p l) as [[Hall ->]|(l1 & x & l2 & -> & Hl1 & Hx & ->)].
  - rewrite Hg, fmap_cons. apply NoDup_cons. split; [|done].
    intros (y & Hy & Hin)%list_elem_of_fmap.
    eapply Forall_forall in Hall; [|exact Hin]. by apply Hall.
  - by rewrite fmap_app, fmap_cons, <- Hx, <- fmap_cons, <- fmap_app.
Qed.
End in_place_facts.

(** * The reconciler *)

Section reconciler.
Context `{Runtime}.

#[local] Instance byName_consistent : ConsistentComparator Client.byName.
Proof.
  split; unfold Client.byName; intros; [apply cmp_total|by eapply cmp_trans].
Qed.

#[local] Instance byStartedAtDesc_consistent :
  ConsistentComparator Client.byStartedAtDesc.
Proof. split; unfold Client.byStartedAtDesc; intros; lia. Qed.

#[local] Instance console_byStartedAtDesc_consistent :
  ConsistentComparator ServerConsole.byStartedAtDesc.
Proof. split; unfold ServerConsole.byStartedAtDesc; intros; lia. Qed.

Lemma filter_filter_same {A : Type} (P : A → Prop) `{!∀ x, Decision (P x)}
    (l : list A) :
  filter P (filter P l) = filter P l.
Proof.
  apply filter_all, Forall_forall. by intros x [? _]%list_elem_of_filter.
Qed.

(** The two upserts and the delete of the client, on the collections. *)
Lemma client_command_upsert_twice payload (commands : list Client.CommandDefinition.t) :
  let upsert cs :=
    sort Client.byName
      (payload :: filter (λ c, Client.CommandDefinition.id c
                               ≠ Client.CommandDefinition.id payload) cs) in
  upsert (upsert commands) = upsert commands.
Proof. exact (upsert_sort_idemp Client.CommandDefinition.id Client.byName _ _). Qed.

Lemma client_execution_upsert_twice payload (history : list Client.ExecutionLog.t) :
  let upsert hs :=
    slice 0 100
      (sort Client.byStartedAtDesc
         (payload :: filter (λ item, Client.ExecutionLog.id item
                                     ≠ Client.ExecutionLog.id payload) hs)) in
  upsert (upsert history) = upsert history.
Proof.
  exact (upsert_take_idemp Client.ExecutionLog.id Client.byStartedAtDesc 100 _ _).
Qed.

Lemma set_commands_twice v v' (s : Client.StoreState.t) :
  Client.StoreState.set_commands v (Client.StoreState.set_commands v' s)
  = Client.StoreState.set_commands v s.
Proof. by destruct s. Qed.

Lemma set_history_twice v v' (s : Client.StoreState.t) :
  Client.StoreState.set_history v (Client.StoreState.set_history v' s)
  = Client.StoreState.set_history v s.
Proof. by destruct s. Qed.

Lemma client_integrateEvent_twice event state :
  Client.integrateEvent event (Client.integrateEvent event state)
  = Client.integrateEvent event state.
Proof.
  destruct event as [p|p|i|p|p|p]; unfold Client.integrateEvent; cbv zeta;
    rewrite ?set_commands_twice, ?set_history_twice; f_equal.
  - apply client_command_upsert_twice.
  - apply client_command_upsert_twice.
  - destruct state. apply filter_filter_same.
  - apply client_execution_upsert_twice.
  - apply client_execution_upsert_twice.
  - apply client_execution_upsert_twice.
Qed.

(** The updaters of the server console are [replaceOrAdd], with nothing
    done after an addition for the commands and with a sort for the history. *)
Lemma mergeCommand_twice payload prev :
  ServerConsole.mergeCommand payload (ServerConsole.mergeCommand payload prev)
  = ServerConsole.mergeCommand payload prev.
Proof.
  refine (replaceOrAdd_idemp ServerConsole.CommandDefinition.id (λ l, l) payload prev _).
  intros l' _. by exists [], l'.
Qed.

Lemma mergeExecution_twice payload prev :
  ServerConsole.mergeExecution payload (ServerConsole.mergeExecution payload prev)
  = ServerConsole.mergeExecution payload prev.
Proof.
  refine (replaceOrAdd_idemp ServerConsole.ExecutionLog.id
            (sort ServerConsole.byStartedAtDesc) payload prev _).
  intros l' Hl'. simpl.
  destruct (sort_insert_split ServerConsole.byStartedAtDesc payload
              (sort ServerConsole.byStartedAtDesc l'))
    as (l1 & l2 & Hsplit & -> & _ & _).
  exists l1, l2. split; [done|].
  apply Forall_forall. intros y Hy.
  assert (Hin : y ∈ sort ServerConsole.byStartedAtDesc l').
  { rewrite Hsplit. apply elem_of_app. by left. }
  apply (proj1 (elem_of_sort ServerConsole.byStartedAtDesc y l')) in Hin.
  exact (proj1 (Forall_forall _ _) Hl' y Hin).
Qed.

Lemma console_listener_twice event d :
  ServerConsole.listener event (ServerConsole.listener event d)
  = ServerConsole.listener event d.
Proof.
  destruct d as [cs hs ld er].
  destruct event as [p|p|i|p|p|p]; unfold ServerConsole.listener;
    cbn [ServerConsole.Data.commands ServerConsole.Data.history
         ServerConsole.Data.loading ServerConsole.Data.error]; f_equal;
    first [apply mergeCommand_twice|apply mergeExecution_twice|apply filter_filter_same].
Qed.

(** C1. Reconciler idempotence: for every state of the client store and
    every event of the six kinds, [integrateEvent] applied twice with the
    event leaves the store, and so its commands and its history, as one
    application leaves them; the listener of the server console, the other
    event-merge path, is idempotent in the same way. *)
Theorem integrateEvent_idempotent :
  (∀ (event : Client.ServerEvent) (state : Client.StoreState.t),
     let once := Client.integrateEvent event state in
     let twice := Client.integrateEvent event once in
     Client.StoreState.commands twice = Client.StoreState.commands once ∧
     Client.StoreState.history twice = Client.StoreState.history once ∧
     twice = once) ∧
  (∀ (event : ServerConsole.CommandCenterEvent) (d : ServerConsole.Data.t),
     ServerConsole.listener event (ServerConsole.listener event d)
     = ServerConsole.listener event d).
Proof.
  split.
  - intros event state. simpl. by rewrite client_integrateEvent_twice.
  - apply console_listener_twice.
Qed.

(** ** Identifiers stay pairwise distinct *)

Lemma NoDup_fmap_filter {A B : Type} (f : A → B) (P : A → Prop)
    `{!∀ x, Decision (P x)} (l : list A) :
  NoDup (f <$> l) → NoDup (f <$> filter P l).
Proof.
  intros Hl. eapply sublist_NoDup; [exact Hl|].
  apply fmap_sublist, sublist_filter.
Qed.

Lemma NoDup_fmap_take {A B : Type} (f : A → B) n (l : list A) :
  NoDup (f <$> l) → NoDup (f <$> take n l).
Proof.
  intros Hl. eapply sublist_NoDup; [exact Hl|].
  apply fmap_sublist, sublist_take.
Qed.

Lemma NoDup_fmap_upsert {A : Type} (key : A → string) (p : A) (l : list A) :
  NoDup (key <$> l) → NoDup (key <$> p :: filter (λ x, key x ≠ key p) l).
Proof.
  intros Hl. rewrite fmap_cons. apply NoDup_cons. split.
  - intros (y & Hy & [Hne _]%list_elem_of_filter)%list_elem_of_fmap. by apply Hne.
  - by apply NoDup_fmap_filter.
Qed.

Lemma NoDup_fmap_sort_upsert {A : Type} (key : A → string) (cmp : A → A → Z)
    (p : A) (l : list A) :
  NoDup (key <$> l) →
  NoDup (key <$> sort cmp (p :: filter (λ x, key x ≠ key p) l)).
Proof. intros Hl. rewrite (sort_perm cmp). by apply NoDup_fmap_upsert. Qed.

(** What [integrateEvent] leaves in the two collections. *)
Lemma commands_integrateEvent event state :
  Client.StoreState.commands (Client.integrateEvent event state) =
  match event with
  | Client.command_created payload
  | Client.command_updated payload =>
      sort Client.byName
        (payload :: filter (λ c, Client.CommandDefinition.id c
                                 ≠ Client.CommandDefinition.id payload)
                      (Client.StoreState.commands state))
  | Client.command_deleted id =>
      filter (λ c, Client.CommandDefinition.id c ≠ id) (Client.StoreState.commands state)
  | _ => Client.StoreState.commands state
  end.
Proof. by destruct state, event. Qed.

Lemma history_integrateEvent event state :
  Client.StoreState.history (Client.integrateEvent event state) =
  match event with
  | Client.execution_started payload
  | Client.execution_updated payload
  | Client.execution_finished payload =>
      take 100
        (sort Client.byStartedAtDesc
           (payload :: filter (λ item, Client.ExecutionLog.id item
                                       ≠ Client.ExecutionLog.id payload)
                         (Client.StoreState.history state)))
  | _ => Client.StoreState.history state
  end.
Proof. by destruct state, event. Qed.

Lemma client_integrateEvent_NoDup event state :
  NoDup (Client.CommandDefinition.id <$> Client.StoreState.commands state) →
  NoDup (Client.ExecutionLog.id <$> Client.StoreState.history state) →
  NoDup (Client.CommandDefinition.id
           <$> Client.StoreState.commands (Client.integrateEvent event state)) ∧
  NoDup (Client.ExecutionLog.id
           <$> Client.StoreState.history (Client.integrateEvent event state)).
Proof.
  intros Hcs Hhs. rewrite commands_integrateEvent, history_integrateEvent.
  destruct event as [p|p|i|p|p|p]; (split; [|try done]); try done;
    first [by apply NoDup_fmap_sort_upsert
          |by apply NoDup_fmap_filter
          |by apply NoDup_fmap_take, NoDup_fmap_sort_upsert].
Qed.

Lemma client_deliver_NoDup events state :
  NoDup (Client.CommandDefinition.id <$> Client.StoreState.commands state) →
  NoDup (Client.ExecutionLog.id <$> Client.StoreState.history state) →
  NoDup (Client.CommandDefinition.id
           <$> Client.StoreState.commands (Client.deliver events state)) ∧
  NoDup (Client.ExecutionLog.id
           <$> Client.StoreState.history (Client.deliver events state)).
Proof.
  revert state. induction events as [|event events IH]; intros state Hcs Hhs; [done|].
  destruct (client_integrateEvent_NoDup event state Hcs Hhs) as [Hcs' Hhs'].
  by apply IH.
Qed.

Lemma mergeCommand_NoDup payload prev :
  NoDup (ServerConsole.CommandDefinition.id <$> prev) →
  NoDup (ServerConsole.CommandDefinition.id <$> ServerConsole.mergeCommand payload prev).
Proof.
  exact (replaceOrAdd_NoDup ServerConsole.CommandDefinition.id (λ l, l) payload prev
           (λ _, reflexivity _)).
Qed.

Lemma mergeExecution_NoDup payload prev :
  NoDup (ServerConsole.ExecutionLog.id <$> prev) →
  NoDup (ServerConsole.ExecutionLog.id <$> ServerConsole.mergeExecution payload prev).
Proof.
  exact (replaceOrAdd_NoDup ServerConsole.ExecutionLog.id
           (sort ServerConsole.byStartedAtDesc) payload prev
           (λ l', sort_perm ServerConsole.byStartedAtDesc (payload :: l'))).
Qed.

Lemma console_deliver_NoDup events d :
  NoDup (ServerConsole.CommandDefinition.id <$> ServerConsole.Data.commands d) →
  NoDup (ServerConsole.ExecutionLog.id <$> ServerConsole.Data.history d) →
  NoDup (ServerConsole.CommandDefinition.id
           <$> ServerConsole.Data.commands (ServerConsole.deliver events d)) ∧
  NoDup (ServerConsole.ExecutionLog.id
           <$> ServerConsole.Data.history (ServerConsole.deliver events d)).
Proof.
  revert d. induction events as [|event events IH]; intros d Hcs Hhs; [done|].
  apply IH; destruct d as [cs hs ld er]; destruct event as [p|p|i|p|p|p]; simpl in *;
    first [done|by apply mergeCommand_NoDup|by apply mergeExecution_NoDup
          |by apply NoDup_fmap_filter].
Qed.

(** C3. Uniqueness: starting from collections whose ids are pairwise
    distinct, after every finite sequence of events merged by
    [integrateEvent] no two commands share an id and no two history entries
    share an id; the same holds for the listener of the server console. *)
Theorem ids_stay_unique
    (events : list Client.ServerEvent) (state : Client.StoreState.t)
    (consoleEvents : list ServerConsole.CommandCenterEvent) (d : ServerConsole.Data.t) :
  NoDup (Client.CommandDefinition.id <$> Client.StoreState.commands state) →
  NoDup (Client.ExecutionLog.id <$> Client.StoreState.history state) →
  NoDup (ServerConsole.CommandDefinition.id <$> ServerConsole.Data.commands d) →
  NoDup (ServerConsole.ExecutionLog.id <$> ServerConsole.Data.history d) →
  (NoDup (Client.CommandDefinition.id
            <$> Client.StoreState.commands (Client.deliver events state)) ∧
   NoDup (Client.ExecutionLog.id
            <$> Client.StoreState.history (Client.deliver events state))) ∧
  (NoDup (ServerConsole.CommandDefinition.id
            <$> ServerConsole.Data.commands (ServerConsole.deliver consoleEvents d)) ∧
   NoDup (ServerConsole.ExecutionLog.id
            <$> ServerConsole.Data.history (ServerConsole.deliver consoleEvents d))).
Proof.
  intros Hcs Hhs Hccs Hchs. split.
  - by apply client_deliver_NoDup.
  - by apply console_deliver_NoDup.
Qed.

(** ** Ordering *)

Lemma StronglySorted_mono {A : Type} (R1 R2 : A → A → Prop) (l : list A) :
  (∀ a b, R1 a b → R2 a b) → StronglySorted R1 l → StronglySorted R2 l.
Proof.
  intros HR. induction 1 as [|x l _ IH Hx]; constructor; [done|].
  eapply Forall_impl; [exact Hx|]. intros y. apply HR.
Qed.

Lemma sortedByStartedAtDesc_precedes (l : list Client.ExecutionLog.t) :
  sortedByStartedAtDesc Client.ExecutionLog.startedAt l
  ↔ StronglySorted (precedes Client.byStartedAtDesc) l.
Proof.
  split; apply StronglySorted_mono; unfold precedes, Client.byStartedAtDesc; intros; lia.
Qed.

Lemma ordered_collections s s' :
  Client.StoreState.commands s' = Client.StoreState.commands s →
  Client.StoreState.history s' = Client.StoreState.history s →
  ordered s → ordered s'.
Proof. unfold ordered. by intros -> ->. Qed.

Lemma ordered_initial w : ordered (Client.useCommandStore w).
Proof. split; constructor. Qed.

Lemma ordered_login serverUrl username password response s w :
  ordered s → ordered (Client.Effect.state (Client.login serverUrl username password response s w)).
Proof.
  apply ordered_collections; unfold Client.login;
    destruct (negb _), response; by destruct s.
Qed.

Lemma ordered_logout s w : ordered (Client.logout s w).1.
Proof. destruct s. split; constructor. Qed.

Lemma ordered_fetchData commandsRes historyRes secondRejectsFirst s :
  ordered s → ordered (Client.fetchData commandsRes historyRes secondRejectsFirst s).1.
Proof.
  intros Hs. unfold Client.fetchData.
  destruct (_ || _); [done|].
  destruct (Promise_all _ _ _) as [err|[commandsData historyData]].
  - revert Hs. apply ordered_collections; by destruct s.
  - destruct s. split; simpl.
    + apply (sort_sorted Client.byName).
    + apply sortedByStartedAtDesc_precedes, (sort_sorted Client.byStartedAtDesc).
Qed.

Lemma ordered_execute commandId parameters response s :
  ordered s → ordered (Client.execute commandId parameters response s).1.1.
Proof.
  apply ordered_collections; unfold Client.execute;
    destruct (_ || _), response; by destruct s.
Qed.

Lemma ordered_integrateEvent event s :
  ordered s → ordered (Client.integrateEvent event s).
Proof.
  intros [Hcs Hhs]. unfold ordered.
  rewrite commands_integrateEvent, history_integrateEvent.
  apply sortedByStartedAtDesc_precedes in Hhs.
  destruct event as [p|p|i|p|p|p]; split;
    rewrite ?sortedByStartedAtDesc_precedes; try done;
    first [apply (sort_sorted Client.byName)
          |by apply (sorted_filter Client.byName)
          |apply (sorted_take Client.byStartedAtDesc),
             (sort_sorted Client.byStartedAtDesc)].
Qed.

Lemma ordered_setServerUrl url s w : ordered s → ordered (Client.setServerUrl url s w).1.
Proof. apply ordered_collections; by destruct s. Qed.

Lemma ordered_step a s w : ordered s → ordered (Client.step a (s, w)).1.
Proof.
  intros Hs. destruct a; unfold Client.step.
  - by apply ordered_login.
  - apply ordered_logout.
  - by apply ordered_fetchData.
  - by apply ordered_execute.
  - by apply ordered_integrateEvent.
  - revert Hs. apply ordered_collections; by destruct s.
  - by apply ordered_setServerUrl.
  - revert Hs. apply ordered_collections; by destruct s.
Qed.

Lemma run_cons a actions sw :
  Client.run (a :: actions) sw = Client.run actions (Client.step a sw).
Proof. reflexivity. Qed.

Lemma ordered_run actions s w : ordered s → ordered (Client.run actions (s, w)).1.
Proof.
  revert s w. induction actions as [|a actions IH]; intros s w Hs; [done|].
  rewrite run_cons.
  pose proof (ordered_step a s w Hs) as Hstep.
  destruct (Client.step a (s, w)) as [s' w']. by apply IH.
Qed.

(** C4 (as amended). Ordering in the client store: whatever calls are made
    on the store from its creation on (snapshot loads, events, login,
    logout and the rest, with any outcome of their requests), the commands
    are sorted ascending by case-insensitive name and the history is sorted
    by [startedAt] descending. *)
Theorem client_collections_stay_ordered (w : Window) (actions : list Client.Action) :
  let s := (Client.run actions (Client.useCommandStore w, w)).1 in
  sortedByName Client.CommandDefinition.name (Client.StoreState.commands s) ∧
  sortedByStartedAtDesc Client.ExecutionLog.startedAt (Client.StoreState.history s).
Proof. apply ordered_run, ordered_initial. Qed.

(** ** The bounded history *)

Lemma history_deliver events state :
  Client.StoreState.history (Client.deliver events state)
  = foldl historyStep (Client.StoreState.history state) (executionLogs events).
Proof.
  revert state. induction events as [|event events IH]; intros state; [done|].
  change (Client.deliver (event :: events) state)
    with (Client.deliver events (Client.integrateEvent event state)).
  rewrite IH, history_integrateEvent. by destruct event.
Qed.

Lemma length_historyStep history payload : (length (historyStep history payload) ≤ 100)%nat.
Proof. unfold historyStep. rewrite length_take. lia. Qed.

Lemma length_foldl_historyStep logs history :
  logs ≠ [] → (length (foldl historyStep history logs) ≤ 100)%nat.
Proof.
  destruct logs as [|payload logs _] using rev_ind; [done|]. intros _.
  rewrite foldl_snoc. apply length_historyStep.
Qed.

(** One step on the window of a larger collection. *)
Lemma historyStep_window payload (X : list Client.ExecutionLog.t) :
  NoDup (Client.ExecutionLog.id <$> X) →
  Forall (λ q, Client.ExecutionLog.id q = Client.ExecutionLog.id payload →
               dayjs_valueOf (Client.ExecutionLog.startedAt q)
               ≤ dayjs_valueOf (Client.ExecutionLog.startedAt payload)) X →
  historyStep (take 100 (sort Client.byStartedAtDesc X)) payload
  = take 100 (sort Client.byStartedAtDesc
                (payload :: filter (λ x, Client.ExecutionLog.id x
                                         ≠ Client.ExecutionLog.id payload) X)).
Proof.
  intros Hnodup Hback. unfold historyStep. simpl.
  pose proof (sort_sorted Client.byStartedAtDesc X) as Hsorted.
  rewrite (sort_id Client.byStartedAtDesc (filter _ (take 100 _)))
    by by apply sorted_filter, sorted_take.
  rewrite (take_upsert_take Client.ExecutionLog.id Client.byStartedAtDesc); [|done| |].
  - by rewrite (filter_sort Client.byStartedAtDesc).
  - apply atMostOne_NoDup. by rewrite (sort_perm Client.byStartedAtDesc).
  - intros q Hq Hid. apply (proj1 (elem_of_sort Client.byStartedAtDesc q X)) in Hq.
    pose proof (proj1 (Forall_forall _ _) Hback q Hq Hid) as Hle.
    unfold Client.byStartedAtDesc. lia.
Qed.

Lemma foldl_historyStep_window logs :
  ∀ X known,
    NoDup (Client.ExecutionLog.id <$> X) →
    X ⊆ known →
    startedAtNeverMovesBack known logs →
    foldl historyStep (take 100 (sort Client.byStartedAtDesc X)) logs
    = take 100 (sort Client.byStartedAtDesc (latestVersions X logs)).
Proof.
  induction logs as [|payload logs IH]; intros X known Hnodup Hsub Hback; [done|].
  destruct Hback as [Hnow Hlater].
  unfold latestVersions. cbn [foldl].
  rewrite historyStep_window; [|done|].
  - apply (IH _ (payload :: known)); [by apply NoDup_fmap_upsert| |done].
    intros x [->|[_ Hx]%list_elem_of_filter]%elem_of_cons; [left|right; by apply Hsub].
  - apply Forall_forall. intros q Hq. apply (proj1 (Forall_forall _ _) Hnow).
    by apply Hsub.
Qed.

(** After at least one execution event the history is the first hundred,
    newest first, of the latest versions. *)
Lemma foldl_historyStep_latest logs history :
  logs ≠ [] →
  NoDup (Client.ExecutionLog.id <$> history) →
  startedAtNeverMovesBack history logs →
  foldl historyStep history logs
  = take 100 (sort Client.byStartedAtDesc (latestVersions history logs)).
Proof.
  destruct logs as [|payload logs]; [done|]. intros _ Hnodup [Hnow Hlater].
  unfold latestVersions. cbn [foldl].
  apply (foldl_historyStep_window logs _ (payload :: history));
    [by apply NoDup_fmap_upsert| |done].
  intros x [->|[_ Hx]%list_elem_of_filter]%elem_of_cons; [left|by right].
Qed.

(** The first [n] of a collection sorted newest first leave out nothing
    that started later than an entry they hold. *)
Lemma take_sort_holdsMostRecent n (X : list Client.ExecutionLog.t) :
  holdsMostRecent n (take n (sort Client.byStartedAtDesc X)) X.
Proof.
  split; [rewrite length_take; lia|].
  intros held missed Hheld Hmissed Hout.
  pose proof (sort_sorted Client.byStartedAtDesc X) as Hsorted.
  rewrite <- (take_drop n (sort Client.byStartedAtDesc X)) in Hsorted.
  assert (Hdropped : missed ∈ drop n (sort Client.byStartedAtDesc X)).
  { apply (proj2 (elem_of_sort Client.byStartedAtDesc missed X)) in Hmissed.
    rewrite <- (take_drop n (sort Client.byStartedAtDesc X)) in Hmissed.
    apply elem_of_app in Hmissed as [Hkept|Hdropped]; [|done].
    destruct Hout. by apply list_elem_of_fmap_2. }
  pose proof (StronglySorted_app_1_elem_of _ _ _ _ _ Hsorted Hheld Hdropped) as Hle.
  unfold precedes, Client.byStartedAtDesc in Hle. lia.
Qed.

(** C2 (as amended). Bounded history in the client store: after any
    sequence of events with at least one execution event, the history has
    at most 100 entries; and when the ids of the starting history are
    pairwise distinct and no delivered log starts earlier than a version of
    the same id known or delivered before, the history is the first 100, by
    [startedAt] descending, of the latest versions of the starting and the
    delivered logs, so that no latest version left out started later than
    an entry held. *)
Theorem client_history_bounded_window
    (events : list Client.ServerEvent) (state : Client.StoreState.t) :
  executionLogs events ≠ [] →
  let history := Client.StoreState.history (Client.deliver events state) in
  let latest := latestVersions (Client.StoreState.history state) (executionLogs events) in
  (length history ≤ 100)%nat ∧
  (NoDup (Client.ExecutionLog.id <$> Client.StoreState.history state) →
   startedAtNeverMovesBack (Client.StoreState.history state) (executionLogs events) →
   history = take 100 (sort Client.byStartedAtDesc latest) ∧
   holdsMostRecent 100 history latest).
Proof.
  intros Hlogs. simpl. rewrite history_deliver. split.
  - by apply length_foldl_historyStep.
  - intros Hnodup Hback. rewrite foldl_historyStep_latest by done.
    split; [done|]. apply take_sort_holdsMostRecent.
Qed.

End reconciler.

(** C2 fails as it is worded.  The listener of the server console never
    truncates: 101 executions leave 101 entries.  In the client store, when
    the newest of 101 executions comes again with a start in the past, it
    is held while the first execution, which started after it, is not. *)
Lemma bounded_history_counterexample :
  (100 < length (ServerConsole.Data.history
                   (ServerConsole.deliver (H := Reference.runtime)
                      (Examples.consoleBurst 101) Examples.consoleEmpty)))%nat ∧
  ¬ holdsMostRecent (H := Reference.runtime) 100
      (Client.StoreState.history
         (Client.deliver (H := Reference.runtime) Examples.regress Examples.signedOut))
      (executionLogs Examples.regress).
Proof.
  split; [vm_compute; lia|]. intros [_ Hrecent].
  assert (Hle : Reference.epochMillis (Examples.instant 1001)
                ≤ Reference.epochMillis (Examples.instant 0)).
  { apply (Hrecent (Examples.log 101 Client.running 0)
             (Examples.log 1 Client.running 1001)).
    - vm_compute. repeat constructor.
    - vm_compute. repeat constructor.
    - apply (bool_decide_unpack _). vm_compute. exact I. }
  vm_compute in Hle. by apply Hle.
Qed.

(** C2 on a closed run that passes the bound: 101 executions start, each
    a millisecond after the one before, and the fiftieth finishes.  The
    100 that started last are held, the newest first and the fiftieth as
    finished; the first execution is not. *)
Lemma client_history_bounded_window_witness :
  let history :=
    Client.StoreState.history
      (Client.deliver (H := Reference.runtime) Examples.overflow Examples.signedOut) in
  let latest := latestVersions [] (executionLogs Examples.overflow) in
  executionLogs Examples.overflow ≠ [] ∧
  length latest = 101%nat ∧
  length history = 100%nat ∧
  Client.ExecutionLog.id <$> history = pretty <$> reverse (seq 2 100) ∧
  history !! 51%nat = Some (Examples.log 50 Client.success 1050) ∧
  history = take 100 (sort (Client.byStartedAtDesc (H := Reference.runtime)) latest) ∧
  holdsMostRecent (H := Reference.runtime) 100 history latest.
Proof.
  assert (Hlogs : executionLogs Examples.overflow ≠ []) by (vm_compute; discriminate).
  destruct (client_history_bounded_window (H := Reference.runtime)
              Examples.overflow Examples.signedOut Hlogs) as [_ Hwindow].
  split; [exact Hlogs|]. split; [by vm_compute|]. split; [by vm_compute|].
  split; [by vm_compute|]. split; [by vm_compute|].
  apply Hwindow; [constructor|].
  apply (bool_decide_unpack _). vm_compute. exact I.
Defined.

(** C1 on a closed run: an execution starts, a command is renamed, a
    second execution starts and the first finishes; the last event is
    delivered again. *)
Lemma integrateEvent_idempotent_witness :
  let event := Client.execution_finished (Examples.log 1 Client.success 1000) in
  let once :=
    Client.integrateEvent (H := Reference.runtime) event
      (Client.deliver (H := Reference.runtime) Examples.session Examples.signedIn) in
  Client.StoreState.history once
  = [Examples.log 1 Client.success 1000; Examples.log 2 Client.pending 1000] ∧
  Client.integrateEvent (H := Reference.runtime) event once = once.
Proof.
  split; [by vm_compute|].
  exact (proj2 (proj2 (proj1 (integrateEvent_idempotent (H := Reference.runtime)) _ _))).
Defined.

(** C4 on a closed run of the client store: a snapshot, then an added and a
    deleted command and a started execution. *)
Lemma client_collections_stay_ordered_witness :
  let s :=
    (Client.run (H := Reference.runtime)
       [Client.FetchData
          (inr [Examples.command "c2" "beta"; Examples.command "c1" "Alpha"])
          (inr [Examples.log 1 Client.success 1000; Examples.log 2 Client.running 2000])
          false;
        Client.IntegrateEvent (Client.command_created (Examples.command "c3" "Backup"));
        Client.IntegrateEvent (Client.command_deleted "c1");
        Client.IntegrateEvent (Client.execution_started (Examples.log 3 Client.pending 1500))]
       (Client.useCommandStore (H := Reference.runtime) Examples.browser,
        Examples.browser)).1 in
  Client.CommandDefinition.name <$> Client.StoreState.commands s = ["Backup"; "beta"] ∧
  Client.ExecutionLog.id <$> Client.StoreState.history s = ["2"; "3"; "1"] ∧
  sortedByName (H := Reference.runtime) Client.CommandDefinition.name
    (Client.StoreState.commands s) ∧
  sortedByStartedAtDesc (H := Reference.runtime) Client.ExecutionLog.startedAt
    (Client.StoreState.history s).
Proof.
  split; [by vm_compute|]. split; [by vm_compute|].
  exact (client_collections_stay_ordered (H := Reference.runtime) Examples.browser _).
Defined.

(** C3 on closed runs of the client store and of the server console. *)
Lemma ids_stay_unique_witness :
  NoDup (Client.CommandDefinition.id
           <$> Client.StoreState.commands
                 (Client.deliver (H := Reference.runtime) Examples.session Examples.signedIn)) ∧
  NoDup (ServerConsole.ExecutionLog.id
           <$> ServerConsole.Data.history
                 (ServerConsole.deliver (H := Reference.runtime)
                    Examples.consoleSession Examples.consoleEmpty)).
Proof.
  destruct (ids_stay_unique (H := Reference.runtime)
              Examples.session Examples.signedIn
              Examples.consoleSession Examples.consoleEmpty) as [[Hc _] [_ Hh]].
  - apply (bool_decide_unpack _). vm_compute. exact I.
  - constructor.
  - constructor.
  - constructor.
  - by split.
Defined.

(** C4 fails as it is worded for the server console: its listener puts a
    new command in front and its [refresh] keeps the order it is given,
    so the commands are not kept sorted by name there. *)
Lemma console_ordering_counterexample :
  ¬ sortedByName (H := Reference.runtime) ServerConsole.CommandDefinition.name
      (ServerConsole.Data.commands
         (ServerConsole.deliver (H := Reference.runtime)
            Examples.consoleSession Examples.consoleEmpty)) ∧
  ¬ sortedByName (H := Reference.runtime) ServerConsole.CommandDefinition.name
      (ServerConsole.Data.commands
         (ServerConsole.refresh
            (inr [Examples.consoleCommand "c2" "beta"; Examples.consoleCommand "c1" "alpha"])
            (inr []) false Examples.consoleEmpty)).
Proof.
  split; intros Hsorted; vm_compute in Hsorted;
    apply StronglySorted_inv in Hsorted as [_ Hhead];
    apply Forall_cons in Hhead as [Hhead _]; by apply Hhead.
Qed.

(** * The session and the snapshot *)

Section session.
Context `{Runtime}.

Lemma getItem_removeItem key (w : Window) : getItem key (removeItem key w) = None.
Proof. destruct w as [localStorage|]; [|done]. simpl. apply lookup_delete_eq. Qed.

Lemma truthy_true s : truthy s = true ↔ s ≠ "".
Proof.
  unfold truthy. rewrite negb_true_iff. apply String.eqb_neq.
Qed.

Lemma truthy_false s : truthy s = false ↔ s = "".
Proof.
  unfold truthy. rewrite negb_false_iff. apply String.eqb_eq.
Qed.

(** C7. Session teardown: whatever the store and the local storage hold,
    after [logout] the token is empty, the status is [disconnected], the
    commands and the history are empty and no session record is left in
    the local storage. *)
Theorem logout_tears_down (s : Client.StoreState.t) (w : Window) :
  let after := Client.logout s w in
  Client.StoreState.token after.1 = "" ∧
  Client.StoreState.status after.1 = Client.disconnected ∧
  Client.StoreState.commands after.1 = [] ∧
  Client.StoreState.history after.1 = [] ∧
  getItem Client.SESSION_STORAGE_KEY after.2 = None.
Proof.
  simpl. repeat split; try by destruct s.
  apply getItem_removeItem.
Qed.

(** C9. Session hydration: the store is created with the server URL and
    the token of the persisted session record and with status
    [connecting] when such a record with a non-empty token exists, and
    with an empty token and status [disconnected] when none exists; it is
    never created [connected]. *)
Theorem store_hydrates_session (w : Window) :
  let s := Client.useCommandStore w in
  Client.StoreState.status s ≠ Client.connected ∧
  match persistedSession w with
  | Some (serverUrl, token) =>
      Client.StoreState.serverUrl s = serverUrl ∧
      Client.StoreState.token s = token ∧
      token ≠ "" ∧
      Client.StoreState.status s = Client.connecting
  | None =>
      Client.StoreState.token s = "" ∧
      Client.StoreState.status s = Client.disconnected
  end.
Proof.
  unfold Client.useCommandStore, Client.initialSession, persistedSession.
  destruct w as [localStorage|]; simpl; [|done].
  destruct (localStorage !! Client.SESSION_STORAGE_KEY) as [stored|]; simpl; [|done].
  destruct (truthy stored) eqn:Hstored.
  - destruct (JSON_parse stored) as [[[serverUrl [token|]]|]|]; simpl; try done.
    destruct (decide (token = "")) as [->|Hne]; [done|].
    by rewrite (proj2 (truthy_true token) Hne).
  - apply truthy_false in Hstored as ->. by rewrite JSON_parse_empty.
Qed.

(** C10. A failed login: when the login request was sent and failed (a
    response outside 2xx or no response), then, whatever the store and the
    local storage held, the token is empty, the status is [disconnected],
    the session record is gone from the local storage and the failure goes
    on to the caller. *)
Theorem failed_login_tears_down
    (serverUrl username password : string) (failure : JsError)
    (s : Client.StoreState.t) (w : Window) :
  let attempt := Client.login serverUrl username password (inl failure) s w in
  Client.Effect.requests attempt ≠ [] →
  Client.StoreState.token (Client.Effect.state attempt) = "" ∧
  Client.StoreState.status (Client.Effect.state attempt) = Client.disconnected ∧
  getItem Client.SESSION_STORAGE_KEY (Client.Effect.window attempt) = None ∧
  Client.Effect.result attempt = inl failure.
Proof.
  unfold Client.login. destruct (negb _); simpl; [done|]. intros _.
  repeat split; try by destruct s. apply getItem_removeItem.
Qed.

(** C6. Snapshot atomicity: with a server URL and a token in the store,
    [fetchData] issues the commands pull and the history pull together;
    when either fails nothing is merged, the commands and the history stay
    as they were and the one error reported is that of a failed pull; when
    both succeed, both collections are replaced by the sorted snapshot. *)
Theorem snapshot_is_atomic
    (commandsRes : JsError + list Client.CommandDefinition.t)
    (historyRes : JsError + list Client.ExecutionLog.t)
    (secondRejectsFirst : bool) (s : Client.StoreState.t) :
  Client.StoreState.serverUrl s ≠ "" →
  Client.StoreState.token s ≠ "" →
  let after := Client.fetchData commandsRes historyRes secondRejectsFirst s in
  after.2 =
    [GET_commands (Client.StoreState.serverUrl s +:+ "/api/commands")
       ("Bearer " +:+ Client.StoreState.token s);
     GET_history (Client.StoreState.serverUrl s +:+ "/api/history")
       ("Bearer " +:+ Client.StoreState.token s)] ∧
  match commandsRes, historyRes with
  | inr commandsData, inr historyData =>
      Client.StoreState.commands after.1 = sort Client.byName commandsData ∧
      Client.StoreState.history after.1 = sort Client.byStartedAtDesc historyData ∧
      Client.StoreState.error after.1 = None
  | _, _ =>
      Client.StoreState.commands after.1 = Client.StoreState.commands s ∧
      Client.StoreState.history after.1 = Client.StoreState.history s ∧
      ∃ failure, (commandsRes = inl failure ∨ historyRes = inl failure) ∧
                 Client.StoreState.error after.1
                 = Some (surfacedMessage "Unable to reach server" failure)
  end.
Proof.
  intros Hurl%truthy_true Htoken%truthy_true. unfold Client.fetchData.
  rewrite Hurl, Htoken. cbn [negb orb].
  destruct commandsRes as [e1|commandsData], historyRes as [e2|historyData];
    cbn [Promise_all]; (split; [done|]).
  - destruct s. repeat split. exists (if secondRejectsFirst then e2 else e1).
    split; [|done]. destruct secondRejectsFirst; auto.
  - destruct s. repeat split. exists e1. auto.
  - destruct s. repeat split. exists e2. auto.
  - by destruct s.
Qed.

End session.

(** The reference clock on three instants. *)
Example reference_clock :
  Reference.epochMillis "1970-01-01T00:00:00Z" = 0 ∧
  Reference.epochMillis "2000-01-01T00:00:00.000Z" = 946684800000 ∧
  Reference.epochMillis (Examples.instant 1001) = 1704067201001.
Proof. by vm_compute. Qed.

Example reference_codec_roundtrip :
  Reference.parse (Reference.stringify (StoredSession.mk (Some "https://a") (Some "t1")))
  = Some (Some (StoredSession.mk (Some "https://a") (Some "t1"))).
Proof. vm_compute. reflexivity. Qed.

Example hydrate_kept_session :
  Client.useCommandStore (H := Reference.runtime) Examples.browser
  = Client.StoreState.mk "https://cc.local:6280" "t0k" Client.connecting
      false false None [] [].
Proof. by vm_compute. Qed.

Example hydrate_without_window :
  Client.useCommandStore (H := Reference.runtime) None = Examples.signedOut.
Proof. reflexivity. Qed.

(** C9 in a browser that kept a session. *)
Lemma store_hydrates_session_witness :
  let s := Client.useCommandStore (H := Reference.runtime) Examples.browser in
  Client.StoreState.serverUrl s = "https://cc.local:6280" ∧
  Client.StoreState.token s = "t0k" ∧
  Client.StoreState.status s = Client.connecting.
Proof.
  destruct (store_hydrates_session (H := Reference.runtime) Examples.browser)
    as [_ Hrecord].
  assert (Hkept : persistedSession (H := Reference.runtime) Examples.browser
                  = Some ("https://cc.local:6280", "t0k")) by by vm_compute.
  rewrite Hkept in Hrecord. destruct Hrecord as (Hurl & Htoken & _ & Hstatus).
  by repeat split.
Defined.

(** C10 in a browser that kept a session: a rejected login removes it. *)
Lemma failed_login_tears_down_witness :
  let attempt :=
    Client.login (H := Reference.runtime) "cc.local:6280" "admin" "wrong"
      (inl Examples.unauthorized) Examples.signedIn Examples.browser in
  getItem Client.SESSION_STORAGE_KEY Examples.browser ≠ None ∧
  Client.Effect.requests attempt ≠ [] ∧
  Client.StoreState.token (Client.Effect.state attempt) = "" ∧
  Client.StoreState.status (Client.Effect.state attempt) = Client.disconnected ∧
  getItem Client.SESSION_STORAGE_KEY (Client.Effect.window attempt) = None.
Proof.
  intros attempt.
  assert (Hsent : Client.Effect.requests attempt ≠ []) by (vm_compute; discriminate).
  destruct (failed_login_tears_down (H := Reference.runtime) "cc.local:6280" "admin"
              "wrong" Examples.unauthorized Examples.signedIn Examples.browser Hsent)
    as (Htoken & Hstatus & Hgone & _).
  split; [vm_compute; discriminate|]. by repeat split.
Defined.

(** C6 on a closed input: the commands pull succeeds, the history pull is
    rejected, and nothing is merged. *)
Lemma snapshot_is_atomic_witness :
  let after :=
    Client.fetchData (H := Reference.runtime)
      (inr [Examples.command "c2" "beta"; Examples.command "c1" "Alpha"])
      (inl Examples.unauthorized) false Examples.signedIn in
  Client.StoreState.serverUrl Examples.signedIn ≠ "" ∧
  Client.StoreState.token Examples.signedIn ≠ "" ∧
  Client.StoreState.commands after.1 = [Examples.fixedCommand] ∧
  Client.StoreState.history after.1 = [] ∧
  Client.StoreState.error after.1 = Some "Invalid credentials".
Proof.
  intros after.
  assert (Hurl : Client.StoreState.serverUrl Examples.signedIn ≠ "") by done.
  assert (Htoken : Client.StoreState.token Examples.signedIn ≠ "") by done.
  destruct (snapshot_is_atomic (H := Reference.runtime)
              (inr [Examples.command "c2" "beta"; Examples.command "c1" "Alpha"])
              (inl Examples.unauthorized) false Examples.signedIn Hurl Htoken)
    as (_ & Hcommands & Hhistory & failure & [[=]|[= <-]] & Herror).
  by repeat split.
Defined.

Example snapshot_is_not_truncated :
  length (Client.StoreState.history
            (Client.fetchData (H := Reference.runtime) (inr []) (inr (Examples.burst 101))
               false Examples.signedIn).1) = 101%nat.
Proof. by vm_compute. Qed.

Example snapshot_sorts :
  let after :=
    Client.fetchData (H := Reference.runtime)
      (inr [Examples.command "c2" "beta"; Examples.command "c1" "Alpha"])
      (inr [Examples.log 1 Client.success 1000; Examples.log 2 Client.running 2000])
      false Examples.signedIn in
  Client.StoreState.commands after.1
  = [Examples.command "c1" "Alpha"; Examples.command "c2" "beta"] ∧
  Client.StoreState.history after.1
  = [Examples.log 2 Client.running 2000; Examples.log 1 Client.success 1000].
Proof. by vm_compute. Qed.

(** * The server URL *)

Lemma normalizeServerUrl_cases input :
  Client.normalizeServerUrl input
  = if decide (trim input = "") then "" else normalizeBySpec input.
Proof.
  unfold Client.normalizeServerUrl, normalizeBySpec, truthy.
  destruct (decide (trim input = "")) as [->|Hne]; [done|].
  apply String.eqb_neq in Hne. rewrite Hne. simpl.
  by destruct (hasHttpScheme _).
Qed.

(** C8, as it is worded, fails on a blank input: nothing is prefixed. *)
Lemma normalizeServerUrl_blank_counterexample :
  Client.normalizeServerUrl "   " ≠ normalizeBySpec "   ".
Proof. vm_compute. discriminate. Qed.

(** C8 (as amended). URL normalization: for an input that is not blank,
    [login] takes as server URL the input trimmed, without its trailing
    slashes, and with [https://] in front when it has no [http://] or
    [https://] scheme, a URL with a scheme being otherwise unchanged; it
    keeps this URL in the store and sends the request to it.  A blank
    input normalizes to the empty string, and [login] then rejects it
    before any request.  The input [cc.local:6280] normalizes to
    [https://cc.local:6280]. *)
Theorem login_normalizes_serverUrl
    (input username password : string) (response : JsError + Client.LoginResponse.t)
    (s : Client.StoreState.t) (w : Window) `{Runtime} :
  let attempt := Client.login input username password response s w in
  (if decide (trim input = "")
   then Client.normalizeServerUrl input = "" ∧
        Client.Effect.requests attempt = [] ∧
        Client.Effect.result attempt = inl (Error "Missing server URL") ∧
        Client.StoreState.serverUrl (Client.Effect.state attempt)
        = Client.StoreState.serverUrl s
   else Client.normalizeServerUrl input = normalizeBySpec input ∧
        Client.Effect.requests attempt
        = [POST_login (normalizeBySpec input +:+ "/api/auth/login") username password] ∧
        Client.StoreState.serverUrl (Client.Effect.state attempt) = normalizeBySpec input) ∧
  Client.normalizeServerUrl "cc.local:6280" = "https://cc.local:6280".
Proof.
  split; [|reflexivity]. unfold Client.login.
  rewrite normalizeServerUrl_cases.
  destruct (decide (trim input = "")) as [Hblank|Hne].
  - simpl. by destruct s.
  - assert (Hspec : normalizeBySpec input ≠ "").
    { unfold normalizeBySpec. destruct (hasHttpScheme _) eqn:Hscheme; [|done].
      intros Hempty. by rewrite Hempty in Hscheme. }
    apply String.eqb_neq in Hspec. unfold truthy. rewrite Hspec. simpl.
    destruct response; by destruct s.
Qed.

(** C8 on the input of the scenario. *)
Lemma login_normalizes_serverUrl_witness :
  let attempt :=
    Client.login (H := Reference.runtime) "cc.local:6280" "admin" "admin123"
      (inr (Client.LoginResponse.mk "t0k" "2030-01-01T00:00:00Z"))
      Examples.signedOut (Some ∅) in
  Client.Effect.requests attempt
  = [POST_login "https://cc.local:6280/api/auth/login" "admin" "admin123"] ∧
  Client.StoreState.serverUrl (Client.Effect.state attempt) = "https://cc.local:6280" ∧
  Client.StoreState.token (Client.Effect.state attempt) = "t0k".
Proof.
  intros attempt.
  destruct (login_normalizes_serverUrl "cc.local:6280" "admin" "admin123"
              (inr (Client.LoginResponse.mk "t0k" "2030-01-01T00:00:00Z"))
              Examples.signedOut (Some ∅) (H := Reference.runtime)) as [Hcase _].
  destruct (decide (trim "cc.local:6280" = "")) as [Hblank|_]; [done|].
  destruct Hcase as (_ & Hsent & Hurl). by repeat split.
Defined.

(** * The parameter guard *)


(** The guard compares the texts joined by commas.  On a text area that
    held [a,b], for a command whose defaults are [a] and [b], the one
    parameter [a,b] would pass.  No such text comes to stand in the sheet
    of a command that allows no arguments: its text area is disabled and
    holds the defaults, one per line (see the guard of the sheet
    below). *)
Example guard_misses_comma_parameter :
  Client.CommandDefinition.allowArguments Examples.fixedCommand = false ∧
  Client.parseParameters "a,b" = ["a,b"] ∧
  Client.parseParameters "a,b" ≠ Client.CommandDefinition.args Examples.fixedCommand ∧
  Client.CommandDetailSheet_handleExecute Examples.fixedCommand "a,b"
    (inr Examples.queued) Examples.signedIn
  = (None, Examples.signedIn,
     [POST_execute "https://cc.local:6280/api/commands/c1/execute" ["a,b"] "Bearer t0k"]).
Proof. repeat split. vm_compute. discriminate. Qed.

(** * More of the strings *)

Section string_facts.
Implicit Types (s a b : string) (c : ascii).

Lemma append_cons c s a : String c s +:+ a = String c (s +:+ a).
Proof. reflexivity. Qed.

Lemma append_empty_l s : "" +:+ s = s.
Proof. reflexivity. Qed.

Lemma append_empty_r s : s +:+ "" = s.
Proof. induction s as [|c s IH]; [done|]. by rewrite append_cons, IH. Qed.

Lemma stripTrailingSlashes_idemp s :
  stripTrailingSlashes (stripTrailingSlashes s) = stripTrailingSlashes s.
Proof.
  induction s as [|c s IH]; [done|]. simpl.
  destruct (stripTrailingSlashes s) as [|d t] eqn:Hs.
  - destruct (Ascii.eqb c "/") eqn:Hc; [done|]. simpl. by rewrite Hc.
  - simpl. simpl in IH. by rewrite IH.
Qed.

Lemma stripTrailingSlashes_app a s :
  stripTrailingSlashes s ≠ "" →
  stripTrailingSlashes (a +:+ s) = a +:+ stripTrailingSlashes s.
Proof.
  intros Hs. induction a as [|c a IH]; [done|].
  rewrite !append_cons. simpl. rewrite IH.
  destruct (a +:+ stripTrailingSlashes s) eqn:Happ; [|done].
  destruct a; [done|discriminate].
Qed.

Lemma hasHttpScheme_https s : hasHttpScheme ("https://" +:+ s) = true.
Proof. by destruct s. Qed.

(** Splitting. *)
Lemma split_cons_inv c s : ∃ piece pieces, split c s = piece :: pieces.
Proof.
  induction s as [|d s IH]; simpl; [by eexists _, _|].
  destruct (Ascii.eqb d c); [by eexists _, _|].
  destruct IH as (piece & pieces & ->). by eexists _, _.
Qed.

Lemma split_app_plain c a s :
  occurs c a = false →
  split c (a +:+ s) =
    match split c s with
    | piece :: pieces => (a +:+ piece) :: pieces
    | [] => [a]
    end.
Proof.
  induction a as [|d a IH]; intros Hfree.
  - rewrite append_empty_l.
    by destruct (split_cons_inv c s) as (piece & pieces & ->).
  - simpl in Hfree. apply orb_false_iff in Hfree as [Hd Ha].
    rewrite append_cons. cbn [split]. rewrite Hd, IH by done.
    by destruct (split_cons_inv c s) as (piece & pieces & ->).
Qed.

Lemma split_plain c a : occurs c a = false → split c a = [a].
Proof.
  intros Ha. rewrite <- (append_empty_r a) at 1.
  rewrite split_app_plain by done. simpl. by rewrite append_empty_r.
Qed.

(** A joined array, split at the first character of the separator: the
    entries come back, all but the first with the rest of the separator in
    front. *)
Lemma split_join c pad (l : list string) :
  Forall (λ a, occurs c a = false) l → occurs c pad = false →
  split c (join (String c pad) l) =
    match l with
    | [] => [""]
    | a :: l' => a :: ((λ b, pad +:+ b) <$> l')
    end.
Proof.
  intros Hl Hpad. induction Hl as [|a l Ha Hl IH]; [done|].
  destruct l as [|b l]; [by apply split_plain|].
  change (join (String c pad) (a :: b :: l))
    with (a +:+ String c (pad +:+ join (String c pad) (b :: l))).
  rewrite split_app_plain by done. cbn [split]. rewrite Ascii.eqb_refl.
  rewrite append_empty_r, split_app_plain by done.
  by rewrite IH.
Qed.

Lemma splitLines_split s : splitLines s = split "010" s.
Proof. induction s as [|c s IH]; [done|]. simpl. by rewrite IH. Qed.

Lemma filter_truthy_all (l : list string) :
  Forall (λ a, a ≠ "") l → List.filter truthy l = l.
Proof.
  induction 1 as [|a l Ha _ IH]; [done|]. simpl.
  unfold truthy at 1. apply String.eqb_neq in Ha. rewrite Ha. simpl. by rewrite IH.
Qed.

Lemma fmap_trim_plain sep pad (l : list string) :
  (∀ b, trim (pad +:+ b) = trim b) →
  Forall (plainEntry sep) l → trim <$> ((λ b, pad +:+ b) <$> l) = l.
Proof.
  intros Hpad. induction 1 as [|b k (_ & Hb & _) _ IH]; [done|].
  by rewrite !fmap_cons, Hpad, Hb, IH.
Qed.

(** A text field with one entry per separator gives back the entries it
    was filled with. *)
Lemma entries_roundtrip sep pad (l : list string) :
  occurs sep pad = false → (∀ b, trim (pad +:+ b) = trim b) →
  Forall (plainEntry sep) l →
  List.filter truthy (trim <$> split sep (join (String sep pad) l)) = l.
Proof.
  intros Hfree Hpad Hl. rewrite split_join; [| |done].
  - destruct l as [|a l]; [done|].
    pose proof Hl as [(_ & Ha & _) Hl']%Forall_cons.
    rewrite fmap_cons, Ha, (fmap_trim_plain sep) by done.
    apply filter_truthy_all. eapply Forall_impl; [exact Hl|]. by intros b (? & _).
  - eapply Forall_impl; [exact Hl|]. by intros b (_ & _ & ?).
Qed.

Lemma lines_roundtrip (l : list string) :
  Forall (plainEntry "010") l →
  List.filter truthy (trim <$> split "010" (join lineFeed l)) = l.
Proof. by apply (entries_roundtrip "010" ""). Qed.

Lemma commas_roundtrip (l : list string) :
  Forall (plainEntry ",") l →
  List.filter truthy (trim <$> split "," (join ", " l)) = l.
Proof. by apply (entries_roundtrip "," " "). Qed.
End string_facts.

(** * More of the client *)

(** ** The normalized server URL *)

Lemma normalizeServerUrl_blank input :
  trim input = "" → Client.normalizeServerUrl input = "".
Proof. intros Hblank. rewrite normalizeServerUrl_cases. by rewrite decide_True. Qed.

Lemma normalizeServerUrl_scheme input :
  trim input ≠ "" → hasHttpScheme (Client.normalizeServerUrl input) = true.
Proof.
  intros Hne. rewrite normalizeServerUrl_cases, decide_False by done.
  unfold normalizeBySpec.
  destruct (hasHttpScheme (stripTrailingSlashes (trim input))) eqn:Hscheme; [done|].
  apply hasHttpScheme_https.
Qed.

Lemma normalizeServerUrl_slashes input :
  trim input ≠ "" → stripTrailingSlashes (trim input) = "" →
  Client.normalizeServerUrl input = "https://".
Proof.
  intros Hne Hslashes. rewrite normalizeServerUrl_cases, decide_False by done.
  unfold normalizeBySpec. by rewrite Hslashes.
Qed.

Lemma normalizeServerUrl_stripped input :
  stripTrailingSlashes (trim input) ≠ "" →
  stripTrailingSlashes (Client.normalizeServerUrl input) = Client.normalizeServerUrl input.
Proof.
  intros Hne. rewrite normalizeServerUrl_cases.
  destruct (decide (trim input = "")) as [Hblank|_]; [done|].
  unfold normalizeBySpec.
  destruct (hasHttpScheme (stripTrailingSlashes (trim input)));
    [apply stripTrailingSlashes_idemp|].
  rewrite stripTrailingSlashes_app by by rewrite stripTrailingSlashes_idemp.
  by rewrite stripTrailingSlashes_idemp.
Qed.

Lemma normalizeServerUrl_scheme_empty input :
  Client.normalizeServerUrl input = "" → trim input = "".
Proof.
  intros Hout. destruct (decide (trim input = "")) as [|Hne]; [done|].
  apply normalizeServerUrl_scheme in Hne. by rewrite Hout in Hne.
Qed.

(** X1. A normalized server URL is empty or starts with [http://] or
    [https://], and it is empty exactly for a blank input. *)
Theorem normalizeServerUrl_scheme_qualified (input : string) :
  (Client.normalizeServerUrl input = "" ↔ trim input = "") ∧
  (if decide (trim input = "") then Client.normalizeServerUrl input = ""
   else hasHttpScheme (Client.normalizeServerUrl input) = true).
Proof.
  split.
  - split; [|apply normalizeServerUrl_blank].
    intros Hout. destruct (decide (trim input = "")) as [|Hne]; [done|].
    apply normalizeServerUrl_scheme in Hne. by rewrite Hout in Hne.
  - destruct (decide (trim input = "")); [by apply normalizeServerUrl_blank|].
    by apply normalizeServerUrl_scheme.
Qed.

(** X2. A normalized server URL has no trailing slash, with one exception:
    an input that is nothing but slashes normalizes to [https://]. *)
Theorem normalizeServerUrl_trailing_slash (input : string) :
  if decide (trim input ≠ "" ∧ stripTrailingSlashes (trim input) = "")
  then Client.normalizeServerUrl input = "https://"
  else stripTrailingSlashes (Client.normalizeServerUrl input)
       = Client.normalizeServerUrl input.
Proof.
  destruct (decide _) as [[Hne Hslashes]|Hnot]; [by apply normalizeServerUrl_slashes|].
  destruct (decide (stripTrailingSlashes (trim input) = "")) as [Hslashes|Hne];
    [|by apply normalizeServerUrl_stripped].
  destruct (decide (trim input = "")) as [Hblank|Hne]; [|tauto].
  by rewrite normalizeServerUrl_blank.
Qed.

(** X3. Normalizing a normalized server URL again changes nothing, as long
    as the URL has no white space left at its end and is not the bare
    [https://]. *)
Theorem normalizeServerUrl_idempotent (input : string) :
  let url := Client.normalizeServerUrl input in
  trim url = url → url ≠ "https://" → Client.normalizeServerUrl url = url.
Proof.
  intros url Htrim Hbare.
  destruct (decide (trim input = "")) as [Hblank|Hne].
  { unfold url. by rewrite (normalizeServerUrl_blank input Hblank). }
  assert (Hscheme : hasHttpScheme url = true) by by apply normalizeServerUrl_scheme.
  assert (Hstripped : stripTrailingSlashes url = url).
  { destruct (decide (stripTrailingSlashes (trim input) = "")) as [Hslashes|Hsome].
    - destruct Hbare. by apply normalizeServerUrl_slashes.
    - by apply normalizeServerUrl_stripped. }
  rewrite normalizeServerUrl_cases. rewrite Htrim.
  destruct (decide (url = "")) as [Hempty|_]; [done|].
  unfold normalizeBySpec. by rewrite Htrim, Hstripped, Hscheme.
Qed.

Lemma normalizeServerUrl_idempotent_witness :
  Client.normalizeServerUrl (Client.normalizeServerUrl " cc.local:6280// ")
  = "https://cc.local:6280".
Proof.
  exact (normalizeServerUrl_idempotent " cc.local:6280// " eq_refl
           ltac:(vm_compute; discriminate)).
Defined.

(** Where the proviso matters: a slash alone, and white space in front of
    the trailing slashes. *)
Example normalizeServerUrl_not_idempotent :
  Client.normalizeServerUrl "/" = "https://" ∧
  Client.normalizeServerUrl "https://" = "https://https:" ∧
  Client.normalizeServerUrl "a /" = "https://a " ∧
  Client.normalizeServerUrl "https://a " = "https://a".
Proof. by vm_compute. Qed.

(** ** The parameters of the sheet *)

(** X4. The text area of the sheet, filled with the default arguments one
    per line, is read back as the default arguments, when no argument is
    empty, has white space around it or holds a line feed. *)
Theorem parameters_roundtrip (command : Client.CommandDefinition.t) :
  Forall (plainEntry "010") (Client.CommandDefinition.args command) →
  Client.parseParameters (Client.initialParameterInput command)
  = Client.CommandDefinition.args command.
Proof.
  intros Hplain. unfold Client.parseParameters, Client.initialParameterInput.
  rewrite splitLines_split. by apply lines_roundtrip.
Qed.

Lemma parameters_roundtrip_witness :
  Client.parseParameters (Client.initialParameterInput Examples.fixedCommand) = ["a"; "b"].
Proof.
  apply (parameters_roundtrip Examples.fixedCommand).
  repeat constructor; by vm_compute.
Defined.

(** Default arguments that are not plain do not come back. *)
Example parameters_not_roundtrip :
  Client.parseParameters (join lineFeed [" a"; ""; "b c "]) = ["a"; "b c"].
Proof. by vm_compute. Qed.

Lemma handleExecute_dispatch
    (command : Client.CommandDefinition.t) (parameterInput : string)
    (response : JsError + Client.ExecutionLog.t) (s : Client.StoreState.t) :
  Client.StoreState.serverUrl s ≠ "" → Client.StoreState.token s ≠ "" →
  (Client.CommandDefinition.allowArguments command = true ∨
   Client.parseParameters parameterInput = [] ∨
   join "," (Client.parseParameters parameterInput)
   = join "," (Client.CommandDefinition.args command)) →
  let result := Client.CommandDetailSheet_handleExecute command parameterInput response s in
  result.2 =
    [POST_execute
       (Client.StoreState.serverUrl s +:+ "/api/commands/"
        +:+ Client.CommandDefinition.id command +:+ "/execute")
       (Client.parseParameters parameterInput)
       ("Bearer " +:+ Client.StoreState.token s)] ∧
  result.1.1 = match response with
               | inr _ => None
               | inl err => Some (errorMessage err)
               end.
Proof.
  intros Hurl Htoken Hpass. unfold Client.CommandDetailSheet_handleExecute.
  assert (Hguard :
    negb (Client.CommandDefinition.allowArguments command)
    && negb (length (Client.parseParameters parameterInput) =? 0)%nat
    && negb (String.eqb (join "," (Client.parseParameters parameterInput))
               (join "," (Client.CommandDefinition.args command))) = false).
  { destruct Hpass as [->|[->| ->]]; [done|by rewrite andb_false_r|].
    by rewrite String.eqb_refl, andb_false_r. }
  rewrite Hguard. unfold Client.Dashboard_handleExecute, Client.execute.
  assert (Hurl' : truthy (Client.StoreState.serverUrl (Client.clearError s)) = true).
  { destruct s. by apply truthy_true. }
  assert (Htoken' : truthy (Client.StoreState.token (Client.clearError s)) = true).
  { destruct s. by apply truthy_true. }
  rewrite Hurl', Htoken'. destruct response; by destruct s.
Qed.

(** X5. An untouched sheet sends the defaults: signed in, with default
    arguments that are plain, [handleExecute] on the text the sheet opened
    with refuses nothing and posts the execution with exactly the default
    arguments, whether the command allows arguments or not. *)
Theorem untouched_sheet_sends_defaults
    (command : Client.CommandDefinition.t)
    (response : JsError + Client.ExecutionLog.t) (s : Client.StoreState.t) :
  Forall (plainEntry "010") (Client.CommandDefinition.args command) →
  Client.StoreState.serverUrl s ≠ "" → Client.StoreState.token s ≠ "" →
  let result :=
    Client.CommandDetailSheet_handleExecute command
      (Client.initialParameterInput command) response s in
  result.2 =
    [POST_execute
       (Client.StoreState.serverUrl s +:+ "/api/commands/"
        +:+ Client.CommandDefinition.id command +:+ "/execute")
       (Client.CommandDefinition.args command)
       ("Bearer " +:+ Client.StoreState.token s)] ∧
  result.1.1 = match response with
               | inr _ => None
               | inl err => Some (errorMessage err)
               end.
Proof.
  intros Hplain Hurl Htoken.
  pose proof (handleExecute_dispatch command (Client.initialParameterInput command)
                response s Hurl Htoken) as Hdispatch.
  assert (Hparsed : Client.parseParameters (Client.initialParameterInput command)
                    = Client.CommandDefinition.args command).
  { unfold Client.parseParameters, Client.initialParameterInput.
    rewrite splitLines_split. by apply lines_roundtrip. }
  rewrite Hparsed in Hdispatch. apply Hdispatch. tauto.
Qed.

Lemma untouched_sheet_sends_defaults_witness :
  (Client.CommandDetailSheet_handleExecute Examples.fixedCommand
     (Client.initialParameterInput Examples.fixedCommand)
     (inr Examples.queued) Examples.signedIn).2
  = [POST_execute "https://cc.local:6280/api/commands/c1/execute" ["a"; "b"] "Bearer t0k"].
Proof.
  apply (untouched_sheet_sends_defaults Examples.fixedCommand (inr Examples.queued)
           Examples.signedIn); [repeat constructor; by vm_compute|done|done].
Defined.

(** X6. The sheet refuses locally, with no request and the store
    untouched, exactly when the command does not allow arguments, some
    parameter is given, and the parameters joined by commas differ from the
    default arguments joined by commas. An empty text area is never
    refused. *)
Theorem local_refusal_iff
    (command : Client.CommandDefinition.t) (parameterInput : string)
    (response : JsError + Client.ExecutionLog.t) (s : Client.StoreState.t) :
  Client.CommandDetailSheet_handleExecute command parameterInput response s
  = (Some Client.customParametersRefused, s, [])
  ↔ Client.CommandDefinition.allowArguments command = false ∧
    Client.parseParameters parameterInput ≠ [] ∧
    join "," (Client.parseParameters parameterInput)
    ≠ join "," (Client.CommandDefinition.args command).
Proof.
  unfold Client.CommandDetailSheet_handleExecute.
  destruct (Client.CommandDefinition.allowArguments command) eqn:Hallow; cbn [negb andb].
  { split; [|by intros [? _]]. unfold Client.Dashboard_handleExecute, Client.execute.
    destruct (negb _ || negb _); [by intros [=]|]. by destruct response; intros [=]. }
  destruct (Client.parseParameters parameterInput) as [|p parameters] eqn:Hparse;
    cbn [length Nat.eqb negb andb].
  { split; [|by intros (_ & ? & _)]. unfold Client.Dashboard_handleExecute, Client.execute.
    destruct (negb _ || negb _); [by intros [=]|]. by destruct response; intros [=]. }
  destruct (String.eqb_spec (join "," (p :: parameters))
              (join "," (Client.CommandDefinition.args command))) as [Heq|Hne];
    cbn [negb]; [|done].
  split; [|by intros (_ & _ & ?)]. unfold Client.Dashboard_handleExecute, Client.execute.
  destruct (negb _ || negb _); [by intros [=]|]. by destruct response; intros [=].
Qed.

(** ** The store without a session *)

(** X7. Without a server URL or without a token, [fetchData] and the
    hydration effect issue no request and leave the store as it is, and
    [execute] issues no request, leaves the store as it is and throws
    [Not authenticated]. *)
Theorem unauthenticated_calls_stay_local `{Runtime}
    (commandsRes : JsError + list Client.CommandDefinition.t)
    (historyRes : JsError + list Client.ExecutionLog.t) (secondRejectsFirst : bool)
    (commandId : string) (parameters : list string)
    (response : JsError + Client.ExecutionLog.t) (s : Client.StoreState.t) :
  Client.StoreState.serverUrl s = "" ∨ Client.StoreState.token s = "" →
  Client.fetchData commandsRes historyRes secondRejectsFirst s = (s, []) ∧
  Client.useHydrateSession commandsRes historyRes secondRejectsFirst s = (s, []) ∧
  Client.execute commandId parameters response s
  = (s, [], inl (Error "Not authenticated")).
Proof.
  intros Hmissing.
  assert (Hguard : negb (truthy (Client.StoreState.serverUrl s))
                   || negb (truthy (Client.StoreState.token s)) = true).
  { destruct Hmissing as [-> | ->]; [done|apply orb_true_r]. }
  unfold Client.useHydrateSession, Client.fetchData, Client.execute. rewrite Hguard.
  split; [done|]. split; [|done].
  by destruct (truthy (Client.StoreState.token s)).
Qed.

Lemma unauthenticated_calls_stay_local_witness :
  Client.execute "c1" [] (inr Examples.queued) Examples.signedOut
  = (Examples.signedOut, [], inl (Error "Not authenticated")).
Proof.
  apply (unauthenticated_calls_stay_local (H := Reference.runtime) (inl (Error "x"))
           (inl (Error "x")) false "c1" [] (inr Examples.queued) Examples.signedOut).
  by left.
Defined.

(** ** Snapshots and events *)

Section snapshot_facts.
Context `{Runtime}.

Lemma integrateEvent_session event (s : Client.StoreState.t) :
  let s' := Client.integrateEvent event s in
  Client.StoreState.serverUrl s' = Client.StoreState.serverUrl s ∧
  Client.StoreState.token s' = Client.StoreState.token s ∧
  Client.StoreState.status s' = Client.StoreState.status s ∧
  Client.StoreState.socketConnected s' = Client.StoreState.socketConnected s ∧
  Client.StoreState.loading s' = Client.StoreState.loading s ∧
  Client.StoreState.error s' = Client.StoreState.error s.
Proof. by destruct s, event. Qed.

Lemma deliver_session events (s : Client.StoreState.t) :
  let s' := Client.deliver events s in
  Client.StoreState.serverUrl s' = Client.StoreState.serverUrl s ∧
  Client.StoreState.token s' = Client.StoreState.token s ∧
  Client.StoreState.status s' = Client.StoreState.status s ∧
  Client.StoreState.socketConnected s' = Client.StoreState.socketConnected s ∧
  Client.StoreState.loading s' = Client.StoreState.loading s ∧
  Client.StoreState.error s' = Client.StoreState.error s.
Proof.
  revert s. induction events as [|event events IH]; intros s; [done|].
  destruct (integrateEvent_session event s) as (<- & <- & <- & <- & <- & <-).
  apply (IH (Client.integrateEvent event s)).
Qed.

(** X8. A successful snapshot supersedes the events integrated before it:
    the store after [fetchData] is the same whether or not events were
    delivered first, and so are the requests. *)
Theorem snapshot_supersedes_events
    (commandsData : list Client.CommandDefinition.t)
    (historyData : list Client.ExecutionLog.t) (secondRejectsFirst : bool)
    (events : list Client.ServerEvent) (s : Client.StoreState.t) :
  Client.StoreState.serverUrl s ≠ "" → Client.StoreState.token s ≠ "" →
  Client.fetchData (inr commandsData) (inr historyData) secondRejectsFirst
    (Client.deliver events s)
  = Client.fetchData (inr commandsData) (inr historyData) secondRejectsFirst s.
Proof.
  intros Eurl%truthy_true Etoken%truthy_true.
  destruct (deliver_session events s) as (Hurl & Htoken & _ & Hsocket & _).
  unfold Client.fetchData. rewrite Hurl, Htoken, Eurl, Etoken.
  cbn [negb orb Promise_all]. f_equal.
  destruct (Client.deliver events s), s; simpl in *. by subst.
Qed.

(** X9. Loading the snapshot again with the same two outcomes, whether
    they succeed or fail, leaves the store as the first load left it and
    issues the same requests. *)
Theorem fetchData_retry_idempotent
    (commandsRes : JsError + list Client.CommandDefinition.t)
    (historyRes : JsError + list Client.ExecutionLog.t) (secondRejectsFirst : bool)
    (s : Client.StoreState.t) :
  Client.fetchData commandsRes historyRes secondRejectsFirst
    (Client.fetchData commandsRes historyRes secondRejectsFirst s).1
  = Client.fetchData commandsRes historyRes secondRejectsFirst s.
Proof.
  unfold Client.fetchData.
  destruct (negb (truthy (Client.StoreState.serverUrl s))
            || negb (truthy (Client.StoreState.token s))) eqn:Hguard.
  { cbn [fst]. by rewrite Hguard. }
  destruct (Promise_all commandsRes historyRes secondRejectsFirst)
    as [err|[commandsData historyData]] eqn:Hall; destruct s; simpl in *;
    by rewrite Hguard, ?Hall.
Qed.

End snapshot_facts.

Lemma snapshot_supersedes_events_witness :
  Client.fetchData (H := Reference.runtime) (inr [Examples.fixedCommand])
    (inr [Examples.queued]) false
    (Client.deliver (H := Reference.runtime) Examples.session Examples.signedIn)
  = Client.fetchData (H := Reference.runtime) (inr [Examples.fixedCommand])
      (inr [Examples.queued]) false Examples.signedIn.
Proof.
  by apply (snapshot_supersedes_events (H := Reference.runtime) [Examples.fixedCommand]
              [Examples.queued] false Examples.session Examples.signedIn).
Defined.

(** ** The session across a reload of the page *)

Section reload_facts.
Context `{Runtime}.

Lemma useCommandStore_cases (w : Window) :
  match persistedSession w with
  | Some (serverUrl, token) =>
      token ≠ "" ∧
      Client.useCommandStore w
      = Client.StoreState.mk serverUrl token Client.connecting false false None [] []
  | None =>
      Client.useCommandStore w
      = Client.StoreState.mk (Client.initialSession w).1 "" Client.disconnected
          false false None [] []
  end.
Proof.
  unfold Client.useCommandStore, Client.initialSession, persistedSession.
  destruct w as [localStorage|]; simpl; [|done].
  destruct (localStorage !! Client.SESSION_STORAGE_KEY) as [stored|]; simpl; [|done].
  destruct (truthy stored) eqn:Hstored.
  - destruct (JSON_parse stored) as [[[serverUrl [token|]]|]|]; simpl; try done.
    destruct (decide (token = "")) as [->|Hne]; [done|].
    by rewrite (proj2 (truthy_true token) Hne).
  - apply truthy_false in Hstored as ->. by rewrite JSON_parse_empty.
Qed.

Lemma useCommandStore_without_session (localStorage : gmap string string) :
  localStorage !! Client.SESSION_STORAGE_KEY = None →
  Client.useCommandStore (Some localStorage)
  = Client.StoreState.mk (localStorage !! Client.SERVER_STORAGE_KEY ?? "") ""
      Client.disconnected false false None [] [].
Proof.
  intros Hnone. unfold Client.useCommandStore, Client.initialSession. by rewrite Hnone.
Qed.

Lemma useCommandStore_with_record (localStorage : gmap string string)
    (record : StoredSession.t) :
  localStorage !! Client.SESSION_STORAGE_KEY = Some (JSON_stringify record) →
  JSON_parse (JSON_stringify record) = Some (Some record) →
  Client.useCommandStore (Some localStorage)
  = Client.StoreState.mk (StoredSession.serverUrl record ?? "")
      (StoredSession.token record ?? "")
      (if truthy (StoredSession.token record ?? "")
       then Client.connecting else Client.disconnected)
      false false None [] [].
Proof.
  intros Hstored Hcodec. unfold Client.useCommandStore, Client.initialSession.
  rewrite Hstored.
  destruct (truthy (JSON_stringify _)) eqn:Htruthy.
  - by rewrite Hcodec.
  - apply truthy_false in Htruthy. rewrite Htruthy, JSON_parse_empty in Hcodec. done.
Qed.

Lemma setServerUrl_server_key url (s : Client.StoreState.t)
    (localStorage : gmap string string) :
  getItem Client.SERVER_STORAGE_KEY (Client.setServerUrl url s (Some localStorage)).2
  = Some (Client.normalizeServerUrl url).
Proof.
  unfold Client.setServerUrl. cbn [snd].
  repeat case_match; simpl;
    rewrite ?(lookup_insert_ne _ Client.SESSION_STORAGE_KEY Client.SERVER_STORAGE_KEY)
      by done; apply lookup_insert_eq.
Qed.

Lemma setServerUrl_window url (s : Client.StoreState.t)
    (localStorage : gmap string string) :
  ∃ localStorage', (Client.setServerUrl url s (Some localStorage)).2 = Some localStorage'.
Proof.
  unfold Client.setServerUrl. cbn [snd]. repeat case_match; simpl; eauto.
Qed.

(** X10. Reloading the page after [logout] starts a store that is signed
    out, empty and disconnected, at the server URL last remembered under
    the server key. *)
Theorem logout_then_reload (s : Client.StoreState.t) (w : Window) :
  Client.useCommandStore (Client.logout s w).2
  = Client.StoreState.mk (getItem Client.SERVER_STORAGE_KEY w ?? "") ""
      Client.disconnected false false None [] [].
Proof.
  destruct w as [localStorage|]; [|done]. cbn [Client.logout snd removeItem fmap option_fmap option_map].
  rewrite useCommandStore_without_session by apply lookup_delete_eq.
  simpl. by rewrite lookup_delete_ne.
Qed.

(** X11. Reloading the page after the login form was submitted with a
    server address that is not blank: after a successful login the store
    starts with the normalized address and the token received, connecting
    when the token is not empty; after a failed login it starts signed out
    at the normalized address.  The session record has to survive
    [JSON.stringify] and [JSON.parse]. *)
Theorem submit_then_reload
    (serverUrl username password : string) (response : JsError + Client.LoginResponse.t)
    (s : Client.StoreState.t) (localStorage : gmap string string) :
  trim serverUrl ≠ "" →
  (∀ data, response = inr data →
     let record := StoredSession.mk (Some (Client.normalizeServerUrl serverUrl))
                     (Some (Client.LoginResponse.token data)) in
     JSON_parse (JSON_stringify record) = Some (Some record)) →
  Client.useCommandStore
    (Client.Effect.window
       (Client.LoginView_handleSubmit serverUrl username password response s
          (Some localStorage)))
  = match response with
    | inr data =>
        Client.StoreState.mk (Client.normalizeServerUrl serverUrl)
          (Client.LoginResponse.token data)
          (if truthy (Client.LoginResponse.token data)
           then Client.connecting else Client.disconnected)
          false false None [] []
    | inl _ =>
        Client.StoreState.mk (Client.normalizeServerUrl serverUrl) ""
          Client.disconnected false false None [] []
    end.
Proof.
  intros Hne Hcodec. unfold Client.LoginView_handleSubmit.
  pose proof (setServerUrl_server_key serverUrl (Client.clearError s) localStorage)
    as Hserver.
  destruct (setServerUrl_window serverUrl (Client.clearError s) localStorage)
    as [localStorage' Hwindow].
  destruct (Client.setServerUrl serverUrl (Client.clearError s) (Some localStorage))
    as [s1 w1]. simpl in Hserver, Hwindow. subst w1. simpl in Hserver.
  unfold Client.login.
  rewrite (proj2 (truthy_true _)) by (intros Hblank%normalizeServerUrl_scheme_empty; done).
  cbn [negb]. destruct response as [failure|data]; cbn [Client.Effect.window].
  - cbn [removeItem fmap option_fmap option_map].
    rewrite useCommandStore_without_session by apply lookup_delete_eq.
    by rewrite lookup_delete_ne, Hserver.
  - cbn [setItem fmap option_fmap option_map].
    apply (useCommandStore_with_record _
             (StoredSession.mk (Some (Client.normalizeServerUrl serverUrl))
                (Some (Client.LoginResponse.token data))));
      [apply lookup_insert_eq|by apply Hcodec].
Qed.

(** X12. Changing the server URL keeps the persisted token: reloading the
    page after [setServerUrl], the store starts at the normalized URL with
    the token of the session record that was stored, connecting when that
    token is not empty; with no session record stored it starts signed
    out at the normalized URL.  The rewritten record has to survive
    [JSON.stringify] and [JSON.parse]. *)
Theorem setServerUrl_then_reload
    (url : string) (s : Client.StoreState.t) (localStorage : gmap string string) :
  let token :=
    stored ← localStorage !! Client.SESSION_STORAGE_KEY;
    parsed ← JSON_parse stored;
    record ← parsed;
    StoredSession.token record in
  let record := StoredSession.mk (Some (Client.normalizeServerUrl url)) token in
  (∀ stored, localStorage !! Client.SESSION_STORAGE_KEY = Some stored →
     stored ≠ "" ∧ is_Some (JSON_parse stored) ∧
     JSON_parse (JSON_stringify record) = Some (Some record)) →
  Client.useCommandStore (Client.setServerUrl url s (Some localStorage)).2
  = Client.StoreState.mk (Client.normalizeServerUrl url) (token ?? "")
      (if truthy (token ?? "") then Client.connecting else Client.disconnected)
      false false None [] [].
Proof.
  intros token record Hstored. subst token record. unfold Client.setServerUrl.
  cbn [snd setItem getItem fmap option_fmap option_map mbind option_bind].
  rewrite lookup_insert_ne by done.
  destruct (localStorage !! Client.SESSION_STORAGE_KEY) as [stored|] eqn:Hsession.
  - destruct (Hstored stored eq_refl) as (Hne & [parsed Hparsed] & Hcodec).
    cbn [mbind option_bind] in *.
    rewrite (proj2 (truthy_true stored) Hne), Hparsed in *.
    cbn [mbind option_bind setItem fmap option_fmap option_map] in *.
    rewrite (useCommandStore_with_record _ _ (lookup_insert_eq _ _ _) Hcodec). done.
  - cbn [mbind option_bind].
    rewrite useCommandStore_without_session by by rewrite lookup_insert_ne.
    by rewrite lookup_insert_eq.
Qed.

End reload_facts.

Lemma submit_then_reload_witness :
  Client.useCommandStore (H := Reference.runtime)
    (Client.Effect.window
       (Client.LoginView_handleSubmit (H := Reference.runtime) " cc.local:6280/" "admin"
          "secret" (inr (Client.LoginResponse.mk "t0k" "2030-01-01T00:00:00Z"))
          Examples.signedOut (Some ∅)))
  = Client.StoreState.mk "https://cc.local:6280" "t0k" Client.connecting
      false false None [] [].
Proof.
  apply (submit_then_reload (H := Reference.runtime) " cc.local:6280/" "admin" "secret"
           (inr (Client.LoginResponse.mk "t0k" "2030-01-01T00:00:00Z"))
           Examples.signedOut ∅).
  - by vm_compute.
  - intros data [= <-]. by vm_compute.
Defined.

Lemma setServerUrl_then_reload_witness :
  Client.useCommandStore (H := Reference.runtime)
    (Client.setServerUrl (H := Reference.runtime) "other.local:6280/" Examples.signedIn
       Examples.browser).2
  = Client.StoreState.mk "https://other.local:6280" "t0k" Client.connecting
      false false None [] [].
Proof.
  unfold Examples.browser.
  rewrite (setServerUrl_then_reload (H := Reference.runtime) "other.local:6280/"
             Examples.signedIn
             {[ Client.SESSION_STORAGE_KEY :=
                  Reference.stringify
                    (StoredSession.mk (Some "https://cc.local:6280") (Some "t0k")) ]}).
  - by vm_compute.
  - intros stored Hstored. vm_compute in Hstored. injection Hstored as <-.
    split; [done|]. split; [eexists; vm_compute; reflexivity|by vm_compute].
Defined.

Section view_facts.
Context `{Runtime}.

(** X13. Submitting the login form with a blank server address sends
    nothing: [login] throws [Missing server URL], the store reports
    [Please provide a server URL.] with its token and status as they were,
    and the server URL of the store and the one remembered in the local
    storage are emptied. *)
Theorem blank_submit_stays_local
    (serverUrl username password : string) (response : JsError + Client.LoginResponse.t)
    (s : Client.StoreState.t) (localStorage : gmap string string) :
  trim serverUrl = "" →
  let after :=
    Client.LoginView_handleSubmit serverUrl username password response s
      (Some localStorage) in
  Client.Effect.requests after = [] ∧
  Client.Effect.result after = inl (Error "Missing server URL") ∧
  Client.StoreState.error (Client.Effect.state after)
  = Some "Please provide a server URL." ∧
  Client.StoreState.serverUrl (Client.Effect.state after) = "" ∧
  Client.StoreState.token (Client.Effect.state after) = Client.StoreState.token s ∧
  Client.StoreState.status (Client.Effect.state after) = Client.StoreState.status s ∧
  getItem Client.SERVER_STORAGE_KEY (Client.Effect.window after) = Some "".
Proof.
  intros Hblank after. subst after. unfold Client.LoginView_handleSubmit.
  pose proof (setServerUrl_server_key serverUrl (Client.clearError s) localStorage)
    as Hserver.
  assert (Hstate : (Client.setServerUrl serverUrl (Client.clearError s)
                      (Some localStorage)).1
                   = Client.StoreState.set_serverUrl "" (Client.clearError s)).
  { unfold Client.setServerUrl. by rewrite (normalizeServerUrl_blank _ Hblank). }
  destruct (Client.setServerUrl serverUrl (Client.clearError s) (Some localStorage))
    as [s1 w1]. cbn [fst snd] in Hserver, Hstate. subst s1.
  unfold Client.login. rewrite (normalizeServerUrl_blank _ Hblank) in *.
  cbn [truthy String.eqb negb Client.Effect.requests Client.Effect.result
       Client.Effect.state Client.Effect.window].
  by destruct s.
Qed.

(** X14. The hydration effect on a freshly created store: with a persisted
    session whose token and server URL are not empty, the two pulls go out
    with the persisted credentials, and the store is [connected] when both
    succeed and stays [connecting], with its token, when one fails; with no
    such session, or with an empty server URL, nothing is sent. *)
Theorem hydration_revalidates
    (commandsRes : JsError + list Client.CommandDefinition.t)
    (historyRes : JsError + list Client.ExecutionLog.t) (secondRejectsFirst : bool)
    (w : Window) :
  let created := Client.useCommandStore w in
  let after := Client.useHydrateSession commandsRes historyRes secondRejectsFirst created in
  match persistedSession w with
  | Some (serverUrl, token) =>
      if decide (serverUrl = "") then after = (created, [])
      else
        after.2 = [GET_commands (serverUrl +:+ "/api/commands") ("Bearer " +:+ token);
                   GET_history (serverUrl +:+ "/api/history") ("Bearer " +:+ token)] ∧
        Client.StoreState.serverUrl after.1 = serverUrl ∧
        Client.StoreState.token after.1 = token ∧
        Client.StoreState.status after.1
        = match commandsRes, historyRes with
          | inr _, inr _ => Client.connected
          | _, _ => Client.connecting
          end
  | None => after = (created, [])
  end.
Proof.
  intros created after. subst created after.
  pose proof (useCommandStore_cases w) as Hcases.
  destruct (persistedSession w) as [[serverUrl token]|].
  - destruct Hcases as [Htoken ->]. unfold Client.useHydrateSession, Client.fetchData.
    cbn [Client.StoreState.token Client.StoreState.serverUrl].
    rewrite (proj2 (truthy_true token) Htoken).
    destruct (decide (serverUrl = "")) as [->|Hurl]; [done|].
    rewrite (proj2 (truthy_true serverUrl) Hurl). cbn [negb orb].
    by destruct commandsRes, historyRes, secondRejectsFirst.
  - rewrite Hcases. by unfold Client.useHydrateSession.
Qed.

(** X15. What [App] renders: after the store is created, the dashboard
    exactly when a session with a token that is not empty is persisted;
    after [logout], the login view; after [login], on a blank server
    address what was rendered before, on a failed request the login view,
    and on a successful one the dashboard unless the token received is
    empty. *)
Theorem view_follows_token
    (serverUrl username password : string) (response : JsError + Client.LoginResponse.t)
    (s : Client.StoreState.t) (w : Window) :
  (Client.App (Client.useCommandStore w) = Client.Dashboard
   ↔ is_Some (persistedSession w)) ∧
  Client.App (Client.logout s w).1 = Client.LoginView ∧
  Client.App (Client.Effect.state (Client.login serverUrl username password response s w))
  = (if decide (trim serverUrl = "") then Client.App s
     else match response with
          | inr data =>
              if decide (Client.LoginResponse.token data = "")
              then Client.LoginView else Client.Dashboard
          | inl _ => Client.LoginView
          end).
Proof.
  split; [|split].
  - pose proof (useCommandStore_cases w) as Hcases.
    destruct (persistedSession w) as [[url token]|].
    + destruct Hcases as [Htoken ->]. unfold Client.App. simpl.
      rewrite (proj2 (truthy_true token) Htoken). by split; [eauto|].
    + rewrite Hcases. unfold Client.App. simpl. by split; [|intros []].
  - by destruct s.
  - unfold Client.login.
    destruct (decide (trim serverUrl = "")) as [Hblank|Hne].
    { rewrite (normalizeServerUrl_blank _ Hblank). by destruct s. }
    rewrite (proj2 (truthy_true _))
      by (intros Hout%normalizeServerUrl_scheme_empty; done).
    cbn [negb]. destruct response as [failure|data]; [by destruct s|].
    unfold Client.App. destruct s; simpl.
    destruct (decide (Client.LoginResponse.token data = "")) as [->|Htoken]; [done|].
    by rewrite (proj2 (truthy_true _) Htoken).
Qed.

End view_facts.

Lemma blank_submit_stays_local_witness :
  Client.Effect.requests
    (Client.LoginView_handleSubmit (H := Reference.runtime) "  " "admin" "secret"
       (inr (Client.LoginResponse.mk "t0k" "2030-01-01T00:00:00Z")) Examples.signedOut
       (Some {[ Client.SERVER_STORAGE_KEY := "https://cc.local:6280" ]}))
  = [].
Proof.
  apply (blank_submit_stays_local (H := Reference.runtime) "  " "admin" "secret"
           (inr (Client.LoginResponse.mk "t0k" "2030-01-01T00:00:00Z")) Examples.signedOut
           {[ Client.SERVER_STORAGE_KEY := "https://cc.local:6280" ]}).
  by vm_compute.
Defined.

(** * More of the reconciler *)

Section sort_insert_facts.
Context {A : Type} (cmp : A → A → Z) `{!ConsistentComparator cmp}.
Implicit Types (x y : A) (l : list A).

(** Two elements that the comparator does not hold equal enter an array in
    either order. *)
Lemma sort_insert_comm x y l :
  ¬ equivalent cmp x y →
  sort_insert cmp x (sort_insert cmp y l) = sort_insert cmp y (sort_insert cmp x l).
Proof.
  intros Hne. unfold equivalent in Hne.
  pose proof (cmp_total (cmp := cmp) x y) as Htotal.
  induction l as [|z l IH]; simpl.
  - destruct (decide (cmp x y ≤ 0)), (decide (cmp y x ≤ 0)); try done; tauto.
  - destruct (decide (cmp x z ≤ 0)) as [Hxz|Hxz], (decide (cmp y z ≤ 0)) as [Hyz|Hyz];
      simpl.
    + destruct (decide (cmp x y ≤ 0)), (decide (cmp y x ≤ 0)); simpl;
        rewrite ?decide_True by done; try done; tauto.
    + rewrite (decide_True (P := cmp x z ≤ 0)) by done.
      destruct (decide (cmp y x ≤ 0)) as [Hyx|Hyx].
      { destruct Hyz. by eapply cmp_trans. }
      simpl. by rewrite decide_False.
    + rewrite (decide_True (P := cmp y z ≤ 0)) by done.
      destruct (decide (cmp x y ≤ 0)) as [Hxy|Hxy].
      { destruct Hxz. by eapply cmp_trans. }
      simpl. by rewrite decide_False.
    + rewrite (decide_False (P := cmp x z ≤ 0)), (decide_False (P := cmp y z ≤ 0))
        by done.
      by rewrite IH.
Qed.

Lemma sort_cons_sort x l :
  sort cmp (x :: sort cmp l) = sort_insert cmp x (sort cmp l).
Proof. simpl. by rewrite (sort_idemp cmp). Qed.

(** What [sort] and [slice] keep of an element put in front: the element,
    or as many elements as the slice takes, each of which it has to
    follow. *)
Lemma take_sort_insert_held n x l :
  x ∈ take n (sort_insert cmp x l) ∨
  (length (take n (sort_insert cmp x l)) = n ∧
   Forall (λ y, ¬ cmp x y ≤ 0) (take n (sort_insert cmp x l))).
Proof.
  destruct (sort_insert_split cmp x l) as (l1 & l2 & -> & -> & Hl1 & _).
  destruct (decide (length l1 < n)%nat) as [Hlt|Hge].
  - left. rewrite take_app_ge by lia. apply elem_of_app. right.
    destruct (n - length l1)%nat as [|k] eqn:Hk; [lia|]. simpl. by left.
  - right. rewrite take_app_le by lia. split.
    + rewrite length_take. lia.
    + by apply Forall_take.
Qed.

End sort_insert_facts.

Section event_facts.
Context `{Runtime}.

#[local] Existing Instance byName_consistent.
#[local] Existing Instance byStartedAtDesc_consistent.

(** X16. What a command event does to the commands of the client: a
    created or updated command is there afterwards and replaces what had
    its id, a deleted id is gone, every other command stays, and nothing
    else comes in; execution events leave the commands alone. *)
Theorem command_events_membership
    (event : Client.ServerEvent) (s : Client.StoreState.t)
    (c : Client.CommandDefinition.t) :
  c ∈ Client.StoreState.commands (Client.integrateEvent event s)
  ↔ match event with
    | Client.command_created payload
    | Client.command_updated payload =>
        c = payload ∨
        (c ∈ Client.StoreState.commands s ∧
         Client.CommandDefinition.id c ≠ Client.CommandDefinition.id payload)
    | Client.command_deleted id =>
        c ∈ Client.StoreState.commands s ∧ Client.CommandDefinition.id c ≠ id
    | _ => c ∈ Client.StoreState.commands s
    end.
Proof.
  rewrite commands_integrateEvent.
  destruct event as [p|p|i|p|p|p]; try done;
    rewrite ?(elem_of_sort Client.byName), ?elem_of_cons, list_elem_of_filter; tauto.
Qed.

(** X17. What an execution event does to the history of the client: at
    most 100 entries are held, each of them the log delivered or an entry
    of another id held before; and the log delivered is held unless 100
    entries are held that all started strictly later.  Command events
    leave the history alone. *)
Theorem execution_event_held_or_outdated
    (event : Client.ServerEvent) (s : Client.StoreState.t) :
  let history := Client.StoreState.history (Client.integrateEvent event s) in
  match event with
  | Client.execution_started payload
  | Client.execution_updated payload
  | Client.execution_finished payload =>
      (length history ≤ 100)%nat ∧
      (∀ x, x ∈ history →
         x = payload ∨
         (x ∈ Client.StoreState.history s ∧
          Client.ExecutionLog.id x ≠ Client.ExecutionLog.id payload)) ∧
      (payload ∈ history ∨
       (length history = 100%nat ∧
        ∀ x, x ∈ history →
          dayjs_valueOf (Client.ExecutionLog.startedAt payload)
          < dayjs_valueOf (Client.ExecutionLog.startedAt x)))
  | _ => history = Client.StoreState.history s
  end.
Proof.
  intros history. subst history. rewrite history_integrateEvent.
  destruct event as [p|p|i|p|p|p]; try done.
  all: split; [rewrite length_take; lia|].
  all: split;
    [intros x Hx; apply (subseteq_take 100) in Hx;
     apply (proj1 (elem_of_sort Client.byStartedAtDesc _ _)) in Hx;
     apply (proj1 (elem_of_cons _ _ _)) in Hx as [->|Hx];
     [by left|apply (proj1 (list_elem_of_filter _ _ _)) in Hx; tauto]|].
  all: cbn [sort].
  all: destruct (take_sort_insert_held Client.byStartedAtDesc 100 p
                   (sort Client.byStartedAtDesc
                      (filter (λ item, Client.ExecutionLog.id item
                                       ≠ Client.ExecutionLog.id p)
                         (Client.StoreState.history s))))
         as [Hheld|[Hlen Hall]]; [by left|right; split; [done|]].
  all: intros x Hx; eapply Forall_forall in Hall; [|exact Hx];
       unfold Client.byStartedAtDesc in Hall; lia.
Qed.

Lemma sortedByName_precedes (l : list Client.CommandDefinition.t) :
  sortedByName Client.CommandDefinition.name l
  ↔ StronglySorted (precedes Client.byName) l.
Proof. done. Qed.

(** X18. A command that is created or updated and then deleted leaves the
    store as the deletion alone would, when the commands were in order. *)
Theorem delete_cancels_upsert
    (payload : Client.CommandDefinition.t) (s : Client.StoreState.t) :
  sortedByName Client.CommandDefinition.name (Client.StoreState.commands s) →
  let gone := Client.command_deleted (Client.CommandDefinition.id payload) in
  Client.integrateEvent gone (Client.integrateEvent (Client.command_created payload) s)
  = Client.integrateEvent gone s ∧
  Client.integrateEvent gone (Client.integrateEvent (Client.command_updated payload) s)
  = Client.integrateEvent gone s.
Proof.
  intros Hsorted%sortedByName_precedes gone. subst gone.
  assert (Hcommands :
    filter (λ c, Client.CommandDefinition.id c ≠ Client.CommandDefinition.id payload)
      (sort Client.byName
         (payload :: filter (λ c, Client.CommandDefinition.id c
                                  ≠ Client.CommandDefinition.id payload)
                       (Client.StoreState.commands s)))
    = filter (λ c, Client.CommandDefinition.id c ≠ Client.CommandDefinition.id payload)
        (Client.StoreState.commands s)).
  { rewrite (filter_sort Client.byName), filter_cons_False by (by intros []).
    rewrite filter_filter_same. apply (sort_id Client.byName).
    by apply (sorted_filter Client.byName). }
  split; destruct s; simpl in *; by rewrite Hcommands.
Qed.

Lemma filter_others_comm {A : Type} (key : A → string) (i j : string) (l : list A) :
  filter (λ x, key x ≠ i) (filter (λ x, key x ≠ j) l)
  = filter (λ x, key x ≠ j) (filter (λ x, key x ≠ i) l).
Proof.
  induction l as [|x l IH]; [done|].
  rewrite !(filter_cons _ x).
  destruct (decide (key x ≠ j)), (decide (key x ≠ i));
    rewrite ?filter_cons_True, ?filter_cons_False by done; by rewrite IH.
Qed.

Lemma client_command_upserts_comm (p q : Client.CommandDefinition.t)
    (commands : list Client.CommandDefinition.t) :
  Client.CommandDefinition.id p ≠ Client.CommandDefinition.id q →
  ¬ equivalent Client.byName p q →
  let upsert payload cs :=
    sort Client.byName
      (payload :: filter (λ c, Client.CommandDefinition.id c
                               ≠ Client.CommandDefinition.id payload) cs) in
  upsert q (upsert p commands) = upsert p (upsert q commands).
Proof.
  intros Hid Htie upsert. subst upsert. cbn beta.
  rewrite !(filter_sort Client.byName).
  rewrite (filter_cons_True _ p), (filter_cons_True _ q) by done.
  rewrite !(sort_cons_sort Client.byName). cbn [sort].
  rewrite (filter_others_comm Client.CommandDefinition.id
             (Client.CommandDefinition.id q) (Client.CommandDefinition.id p)).
  symmetry. by apply (sort_insert_comm Client.byName).
Qed.

(** X19. Two created or updated commands with different ids reach the
    store in either order with the same result, as long as their names do
    not compare as equal without regard to case. *)
Theorem command_upserts_commute
    (p q : Client.CommandDefinition.t) (first second : Client.ServerEvent)
    (s : Client.StoreState.t) :
  first ∈ [Client.command_created p; Client.command_updated p] →
  second ∈ [Client.command_created q; Client.command_updated q] →
  Client.CommandDefinition.id p ≠ Client.CommandDefinition.id q →
  ¬ equivalent Client.byName p q →
  Client.integrateEvent second (Client.integrateEvent first s)
  = Client.integrateEvent first (Client.integrateEvent second s).
Proof.
  intros Hfirst Hsecond Hid Htie.
  pose proof (client_command_upserts_comm p q (Client.StoreState.commands s) Hid Htie)
    as Hcomm. cbn zeta in Hcomm.
  rewrite !elem_of_cons, elem_of_nil in Hfirst, Hsecond.
  destruct Hfirst as [->|[->|[]]], Hsecond as [->|[->|[]]];
    destruct s; simpl in *; by rewrite Hcomm.
Qed.

End event_facts.

Lemma delete_cancels_upsert_witness :
  Client.integrateEvent (H := Reference.runtime) (Client.command_deleted "c9")
    (Client.integrateEvent (H := Reference.runtime)
       (Client.command_created (Examples.command "c9" "beta")) Examples.signedIn)
  = Client.integrateEvent (H := Reference.runtime) (Client.command_deleted "c9")
      Examples.signedIn.
Proof.
  destruct (delete_cancels_upsert (H := Reference.runtime) (Examples.command "c9" "beta")
              Examples.signedIn) as [Hcreated _]; [|exact Hcreated].
  repeat constructor.
Defined.

Lemma command_upserts_commute_witness :
  Client.integrateEvent (H := Reference.runtime)
    (Client.command_updated (Examples.command "c2" "beta"))
    (Client.integrateEvent (H := Reference.runtime)
       (Client.command_created (Examples.command "c1" "alpha")) Examples.signedIn)
  = Client.integrateEvent (H := Reference.runtime)
      (Client.command_created (Examples.command "c1" "alpha"))
      (Client.integrateEvent (H := Reference.runtime)
         (Client.command_updated (Examples.command "c2" "beta")) Examples.signedIn).
Proof.
  apply (command_upserts_commute (H := Reference.runtime)
           (Examples.command "c1" "alpha") (Examples.command "c2" "beta")).
  - repeat constructor.
  - repeat constructor.
  - done.
  - unfold equivalent. vm_compute. intros [_ Hback]. by apply Hback.
Defined.

(** Where the proviso matters: of two commands whose names differ in case
    only, the one that arrives last comes first. *)
Example command_upserts_tie :
  let p := Examples.command "c1" "Deploy" in
  let q := Examples.command "c2" "deploy" in
  Client.StoreState.commands
    (Client.deliver (H := Reference.runtime)
       [Client.command_created p; Client.command_created q] Examples.signedOut)
  = [q; p] ∧
  Client.StoreState.commands
    (Client.deliver (H := Reference.runtime)
       [Client.command_created q; Client.command_created p] Examples.signedOut)
  = [p; q].
Proof. by vm_compute. Qed.

(** * More of the server console *)

Section console_facts.
Context `{Runtime}.

#[local] Existing Instance console_byStartedAtDesc_consistent.

(** X20. The refresh of the server console is all or nothing: inside the
    Tauri shell, when both lists arrive they replace the commands and the
    history as received and the error is cleared, and when either fails
    both stay as they were and the error is that of a failed call; outside
    the shell both stay as they were and the error names the shell.  The
    loading flag is down afterwards. *)
Theorem console_refresh_is_atomic
    (isTauriRuntime : bool)
    (commandList : ServerConsole.Thrown + list ServerConsole.CommandDefinition.t)
    (historyList : ServerConsole.Thrown + list ServerConsole.ExecutionLog.t)
    (secondRejectsFirst : bool) (d : ServerConsole.Data.t) :
  let after :=
    ServerConsole.refreshIn isTauriRuntime commandList historyList secondRejectsFirst d in
  ServerConsole.Data.loading after = false ∧
  if isTauriRuntime then
    match commandList, historyList with
    | inr commands, inr history =>
        ServerConsole.Data.commands after = commands ∧
        ServerConsole.Data.history after = history ∧
        ServerConsole.Data.error after = None
    | _, _ =>
        ServerConsole.Data.commands after = ServerConsole.Data.commands d ∧
        ServerConsole.Data.history after = ServerConsole.Data.history d ∧
        ∃ failure, (commandList = inl failure ∨ historyList = inl failure) ∧
                   ServerConsole.Data.error after
                   = Some (ServerConsole.thrownMessage "Failed to load data" failure)
    end
  else
    ServerConsole.Data.commands after = ServerConsole.Data.commands d ∧
    ServerConsole.Data.history after = ServerConsole.Data.history d ∧
    ServerConsole.Data.error after = Some ServerConsole.outsideTauri.
Proof.
  unfold ServerConsole.refreshIn, ServerConsole.refresh, ServerConsole.invokeOrThrow.
  destruct isTauriRuntime; cbn [negb].
  - destruct commandList as [e1|commands], historyList as [e2|history];
      cbn [Promise_all].
    + split; [by destruct secondRejectsFirst|]. repeat split.
      exists (if secondRejectsFirst then e2 else e1).
      split; [destruct secondRejectsFirst; auto|].
      by destruct secondRejectsFirst, e1, e2.
    + repeat split. exists e1. split; [auto|]. by destruct e1.
    + repeat split. exists e2. split; [auto|]. by destruct e2.
    + done.
  - by destruct secondRejectsFirst.
Qed.

(** X21. Outside the Tauri shell no handler of the console reaches the
    backend: saving, deleting and executing invoke nothing, leave the
    commands and the history as they are and report that the console must
    run inside the shell. *)
Theorem outside_tauri_nothing_is_invoked
    (values : ServerConsole.CommandFormValues.t) (command : ServerConsole.CommandDefinition.t)
    (saved : ServerConsole.Thrown + ServerConsole.CommandDefinition.t)
    (deleted : ServerConsole.Thrown + unit)
    (record : ServerConsole.Thrown + ServerConsole.ExecutionLog.t)
    (a : ServerConsole.AppState.t) :
  let outcomes :=
    [ServerConsole.handleFormSubmit false values saved a;
     ServerConsole.handleDelete false command deleted a;
     ServerConsole.handleExecute false command record a] in
  Forall (λ outcome,
            outcome.2 = [] ∧
            ServerConsole.AppState.data outcome.1 = ServerConsole.AppState.data a ∧
            ServerConsole.AppState.executionMessage outcome.1
            = Some ServerConsole.outsideTauri) outcomes.
Proof. repeat constructor. Qed.

(** X22. The backend announces what a handler has just merged, and the
    announcement changes nothing: a saved command whose [command_created]
    or [command_updated] event arrives after the handler merged it, or
    before, is listed once, where the first merge put it; and a deleted
    command whose [command_deleted] event arrives as well is gone all the
    same. *)
Theorem echoed_events_change_nothing
    (values : ServerConsole.CommandFormValues.t)
    (saved command : ServerConsole.CommandDefinition.t) (a : ServerConsole.AppState.t) :
  let commands x := ServerConsole.Data.commands (ServerConsole.AppState.data x) in
  let save x := (ServerConsole.handleFormSubmit true values (inr saved) x).1 in
  let delete x := (ServerConsole.handleDelete true command (inr ()) x).1 in
  let gone :=
    ServerConsole.command_deleted (ServerConsole.CommandDefinition.id command) in
  Forall (λ echo,
            commands (ServerConsole.onEvent echo (save a)) = commands (save a) ∧
            commands (save (ServerConsole.onEvent echo a)) = commands (save a))
    [ServerConsole.command_created saved; ServerConsole.command_updated saved] ∧
  commands (ServerConsole.onEvent gone (delete a)) = commands (delete a) ∧
  commands (delete (ServerConsole.onEvent gone a)) = commands (delete a).
Proof.
  intros commands save delete gone. subst commands save delete gone.
  split; [|split].
  - repeat constructor; apply mergeCommand_twice.
  - apply filter_filter_same.
  - apply filter_filter_same.
Qed.

(** X23. A command merged into the list of the console keeps its place:
    when an entry has its id, the first such entry is replaced where it
    stands and the rest of the list is as it was; when none has, the
    command goes to the front.  The event listener and the save handler
    merge alike. *)
Theorem console_command_keeps_place
    (values : ServerConsole.CommandFormValues.t)
    (payload : ServerConsole.CommandDefinition.t) (a : ServerConsole.AppState.t) :
  let prev := ServerConsole.Data.commands (ServerConsole.AppState.data a) in
  let next :=
    ServerConsole.Data.commands
      (ServerConsole.AppState.data
         (ServerConsole.onEvent (ServerConsole.command_updated payload) a)) in
  ServerConsole.Data.commands
    (ServerConsole.AppState.data
       (ServerConsole.handleFormSubmit true values (inr payload) a).1) = next ∧
  ServerConsole.Data.commands
    (ServerConsole.AppState.data
       (ServerConsole.onEvent (ServerConsole.command_created payload) a)) = next ∧
  ((Forall (λ x, ServerConsole.CommandDefinition.id x
                 ≠ ServerConsole.CommandDefinition.id payload) prev ∧
    next = payload :: prev) ∨
   (∃ l1 x l2,
      prev = l1 ++ x :: l2 ∧
      Forall (λ y, ServerConsole.CommandDefinition.id y
                   ≠ ServerConsole.CommandDefinition.id payload) l1 ∧
      ServerConsole.CommandDefinition.id x = ServerConsole.CommandDefinition.id payload ∧
      next = l1 ++ payload :: l2)).
Proof.
  intros prev next. subst prev next. split; [done|]. split; [done|].
  exact (replaceOrAdd_cases ServerConsole.CommandDefinition.id (λ l, l) payload
           (ServerConsole.Data.commands (ServerConsole.AppState.data a))).
Qed.

End console_facts.

(** ** The command form *)

(** X24. A command opened in the form and saved without an edit goes back
    to the backend as it is: its id, name, executable and flag, its
    arguments and its tags when they are plain (an absent tag list as an
    empty one), and its description trimmed (an absent or blank one as
    none). *)
Theorem form_roundtrip (command : ServerConsole.CommandDefinition.t) :
  Forall (plainEntry "010") (ServerConsole.CommandDefinition.args command) →
  Forall (plainEntry ",") (ServerConsole.CommandDefinition.tags command ?? []) →
  ServerConsole.formPayload (ServerConsole.defaultValues (Some command))
  = ServerConsole.Payload.mk
      (Some (ServerConsole.CommandDefinition.id command))
      (ServerConsole.CommandDefinition.name command)
      (ServerConsole.CommandDefinition.executable command)
      (ServerConsole.CommandDefinition.args command)
      (match ServerConsole.CommandDefinition.description command with
       | Some description =>
           if decide (trim description = "") then None else Some (trim description)
       | None => None
       end)
      (Some (ServerConsole.CommandDefinition.tags command ?? []))
      (ServerConsole.CommandDefinition.allowArguments command).
Proof.
  intros Hargs Htags. unfold ServerConsole.formPayload, ServerConsole.defaultValues.
  cbn [ServerConsole.CommandFormValues.id ServerConsole.CommandFormValues.name
       ServerConsole.CommandFormValues.executable ServerConsole.CommandFormValues.args
       ServerConsole.CommandFormValues.description ServerConsole.CommandFormValues.tags
       ServerConsole.CommandFormValues.allowArguments fmap option_fmap option_map].
  rewrite (lines_roundtrip _ Hargs), (commas_roundtrip _ Htags). f_equal.
  destruct (ServerConsole.CommandDefinition.description command) as [description|];
    [|done].
  cbn [nullish default from_option id]. destruct (decide (trim description = "")) as [->|Hne]; [done|].
  by destruct (trim description).
Qed.

Lemma form_roundtrip_witness :
  ServerConsole.Payload.args
    (ServerConsole.formPayload
       (ServerConsole.defaultValues
          (Some (ServerConsole.CommandDefinition.mk "c1" "Restart" "/usr/bin/systemctl"
                   ["restart"; "nginx.service"] (Some " web server ")
                   (Some ["ops"; "web"]) false "0" "0"))))
  = ["restart"; "nginx.service"].
Proof.
  rewrite (form_roundtrip
             (ServerConsole.CommandDefinition.mk "c1" "Restart" "/usr/bin/systemctl"
                ["restart"; "nginx.service"] (Some " web server ")
                (Some ["ops"; "web"]) false "0" "0")); [done|..];
    repeat constructor; by vm_compute.
Defined.

(** Where the proviso matters: a tag with a comma comes back as two. *)
Example form_splits_tag :
  ServerConsole.Payload.tags
    (ServerConsole.formPayload
       (ServerConsole.defaultValues
          (Some (ServerConsole.CommandDefinition.mk "c1" "Restart" "/usr/bin/systemctl"
                   [] None (Some ["ops,web"]) false "0" "0"))))
  = Some ["ops"; "web"].
Proof. by vm_compute. Qed.

(** ** The filter of the command list *)

Lemma lowerCaseChar_idemp c : lowerCaseChar (lowerCaseChar c) = lowerCaseChar c.
Proof. by destruct c as [[] [] [] [] [] [] [] []]. Qed.

Lemma isWhiteSpace_lowerCaseChar c : isWhiteSpace (lowerCaseChar c) = isWhiteSpace c.
Proof. by destruct c as [[] [] [] [] [] [] [] []]. Qed.

Lemma toLowerCase_idemp s : toLowerCase (toLowerCase s) = toLowerCase s.
Proof. induction s as [|c s IH]; [done|]. simpl. by rewrite lowerCaseChar_idemp, IH. Qed.

Lemma trimStart_toLowerCase s : trimStart (toLowerCase s) = toLowerCase (trimStart s).
Proof.
  induction s as [|c s IH]; [done|]. simpl. rewrite isWhiteSpace_lowerCaseChar.
  by destruct (isWhiteSpace c).
Qed.

Lemma trimEnd_toLowerCase s : trimEnd (toLowerCase s) = toLowerCase (trimEnd s).
Proof.
  induction s as [|c s IH]; [done|]. simpl. rewrite IH, isWhiteSpace_lowerCaseChar.
  destruct (trimEnd s); simpl; [by destruct (isWhiteSpace c)|done].
Qed.

Lemma truthy_toLowerCase s : truthy (toLowerCase s) = truthy s.
Proof. by destruct s. Qed.

(** X25. The filter of the command list ignores the case of the text
    typed: the text in lower case lists the same commands, in the same
    order. *)
Theorem filter_ignores_case
    (commands : list ServerConsole.CommandDefinition.t) (filter : string) :
  ServerConsole.filteredCommands commands (toLowerCase filter)
  = ServerConsole.filteredCommands commands filter.
Proof.
  unfold ServerConsole.filteredCommands, trim.
  by rewrite trimStart_toLowerCase, trimEnd_toLowerCase, truthy_toLowerCase,
    toLowerCase_idemp.
Qed.

(** The text typed is matched as it is, white space included, once it is
    not blank; a blank text lists every command. *)
Example filter_keeps_white_space :
  let commands := [Examples.consoleCommand "c1" "List files"] in
  ServerConsole.filteredCommands commands "LIST" = commands ∧
  ServerConsole.filteredCommands commands " list" = [] ∧
  ServerConsole.filteredCommands commands "  " = commands.
Proof. by vm_compute. Qed.

(** ** The history of the server console *)

Section console_history_facts.
Context `{Runtime}.

#[local] Existing Instance console_byStartedAtDesc_consistent.

Lemma mergeExecution_cases payload (prev : list ServerConsole.ExecutionLog.t) :
  (Forall (λ x, ServerConsole.ExecutionLog.id x ≠ ServerConsole.ExecutionLog.id payload)
     prev ∧
   ServerConsole.mergeExecution payload prev
   = sort ServerConsole.byStartedAtDesc (payload :: prev)) ∨
  (∃ l1 x l2, prev = l1 ++ x :: l2 ∧
              ServerConsole.ExecutionLog.id x = ServerConsole.ExecutionLog.id payload ∧
              ServerConsole.mergeExecution payload prev = l1 ++ payload :: l2).
Proof.
  destruct (replaceOrAdd_cases ServerConsole.ExecutionLog.id
              (sort ServerConsole.byStartedAtDesc) payload prev)
    as [[Hall Hadd]|(l1 & x & l2 & -> & _ & Hx & Hreplace)]; [by left|].
  right. by exists l1, x, l2.
Qed.

Lemma history_listener event (d : ServerConsole.Data.t) :
  ServerConsole.Data.history (ServerConsole.listener event d)
  = match event with
    | ServerConsole.execution_started payload
    | ServerConsole.execution_updated payload
    | ServerConsole.execution_finished payload =>
        ServerConsole.mergeExecution payload (ServerConsole.Data.history d)
    | _ => ServerConsole.Data.history d
    end.
Proof. by destruct event. Qed.

Lemma mergeExecution_keeps payload (prev : list ServerConsole.ExecutionLog.t) :
  (length prev ≤ length (ServerConsole.mergeExecution payload prev))%nat ∧
  ∀ x, x ∈ prev →
    ∃ y, y ∈ ServerConsole.mergeExecution payload prev ∧
         ServerConsole.ExecutionLog.id y = ServerConsole.ExecutionLog.id x.
Proof.
  destruct (mergeExecution_cases payload prev)
    as [[_ ->]|(l1 & x & l2 & -> & Hx & ->)].
  - split.
    + rewrite (Permutation_length (sort_perm ServerConsole.byStartedAtDesc _)).
      simpl. lia.
    + intros x Hx. exists x. split; [|done].
      apply (elem_of_sort ServerConsole.byStartedAtDesc). by right.
  - split; [by rewrite !length_app|].
    intros y Hy. rewrite elem_of_app, elem_of_cons in Hy.
    destruct Hy as [Hy|[->|Hy]].
    + exists y. split; [|done]. rewrite elem_of_app. by left.
    + exists payload. split; [|done]. rewrite elem_of_app, elem_of_cons. auto.
    + exists y. split; [|done]. rewrite elem_of_app, elem_of_cons. auto.
Qed.

(** X26. The console never drops an execution: whatever events arrive,
    the history does not get shorter, and every id it held is still held
    afterwards. *)
Theorem console_history_never_shrinks
    (events : list ServerConsole.CommandCenterEvent) (d : ServerConsole.Data.t) :
  let after := ServerConsole.deliver events d in
  (length (ServerConsole.Data.history d)
   ≤ length (ServerConsole.Data.history after))%nat ∧
  ∀ x, x ∈ ServerConsole.Data.history d →
    ∃ y, y ∈ ServerConsole.Data.history after ∧
         ServerConsole.ExecutionLog.id y = ServerConsole.ExecutionLog.id x.
Proof.
  revert d. induction events as [|event events IH]; intros d.
  { split; [done|]. intros x Hx. by exists x. }
  destruct (IH (ServerConsole.listener event d)) as [IHlen IHin].
  assert (Hstep :
    (length (ServerConsole.Data.history d)
     ≤ length (ServerConsole.Data.history (ServerConsole.listener event d)))%nat ∧
    ∀ x, x ∈ ServerConsole.Data.history d →
      ∃ y, y ∈ ServerConsole.Data.history (ServerConsole.listener event d) ∧
           ServerConsole.ExecutionLog.id y = ServerConsole.ExecutionLog.id x).
  { rewrite history_listener.
    destruct event as [p|p|i|p|p|p]; try apply mergeExecution_keeps;
      (split; [done|]); intros x Hx; by exists x. }
  destruct Hstep as [Hlen Hin]. split.
  - etransitivity; [exact Hlen|exact IHlen].
  - intros x Hx. destruct (Hin x Hx) as (y & Hy & <-).
    destruct (IHin y Hy) as (z & Hz & <-). by exists z.
Qed.

Lemma sorted_replace_same_startedAt
    (l1 l2 : list ServerConsole.ExecutionLog.t) (x p : ServerConsole.ExecutionLog.t) :
  dayjs_valueOf (ServerConsole.ExecutionLog.startedAt p)
  = dayjs_valueOf (ServerConsole.ExecutionLog.startedAt x) →
  sortedByStartedAtDesc ServerConsole.ExecutionLog.startedAt (l1 ++ x :: l2) →
  sortedByStartedAtDesc ServerConsole.ExecutionLog.startedAt (l1 ++ p :: l2).
Proof.
  intros Hsame. unfold sortedByStartedAtDesc.
  induction l1 as [|y l1 IH]; simpl; intros Hsorted.
  - apply StronglySorted_inv in Hsorted as [Hl2 Hx]. constructor; [done|].
    eapply Forall_impl; [exact Hx|]. simpl. intros z Hz. by rewrite Hsame.
  - apply StronglySorted_inv in Hsorted as [Hrest Hy]. constructor; [by apply IH|].
    rewrite Forall_app, Forall_cons in Hy. destruct Hy as (Hl1 & Hyx & Hl2).
    rewrite Forall_app, Forall_cons. repeat split; [done| |done]. by rewrite Hsame.
Qed.

Lemma mergeExecution_sorted payload (prev : list ServerConsole.ExecutionLog.t) :
  (∀ x, x ∈ prev →
     ServerConsole.ExecutionLog.id x = ServerConsole.ExecutionLog.id payload →
     dayjs_valueOf (ServerConsole.ExecutionLog.startedAt x)
     = dayjs_valueOf (ServerConsole.ExecutionLog.startedAt payload)) →
  sortedByStartedAtDesc ServerConsole.ExecutionLog.startedAt prev →
  sortedByStartedAtDesc ServerConsole.ExecutionLog.startedAt
    (ServerConsole.mergeExecution payload prev).
Proof.
  intros Hsame Hsorted.
  destruct (mergeExecution_cases payload prev)
    as [[_ ->]|(l1 & x & l2 & -> & Hx & ->)].
  - pose proof (sort_sorted ServerConsole.byStartedAtDesc (payload :: prev)) as Hsort.
    eapply StronglySorted_mono; [|exact Hsort].
    intros a b. unfold precedes, ServerConsole.byStartedAtDesc. lia.
  - eapply sorted_replace_same_startedAt; [|exact Hsorted].
    symmetry. apply Hsame; [|done]. rewrite elem_of_app, elem_of_cons. auto.
Qed.

Lemma mergeExecution_subseteq payload (prev : list ServerConsole.ExecutionLog.t) :
  ServerConsole.mergeExecution payload prev ⊆ payload :: prev.
Proof.
  destruct (mergeExecution_cases payload prev)
    as [[_ ->]|(l1 & x & l2 & -> & Hx & ->)]; intros y Hy.
  - exact (proj1 (elem_of_sort ServerConsole.byStartedAtDesc _ _) Hy).
  - rewrite elem_of_app, elem_of_cons in Hy.
    rewrite elem_of_cons, elem_of_app, elem_of_cons. tauto.
Qed.

Lemma history_listener_subseteq event events (d : ServerConsole.Data.t) x :
  x ∈ ServerConsole.Data.history (ServerConsole.listener event d)
      ++ consoleExecutionLogs events →
  x ∈ ServerConsole.Data.history d ++ consoleExecutionLogs (event :: events).
Proof.
  rewrite history_listener, !elem_of_app.
  destruct event as [p|p|i|p|p|p]; cbn [consoleExecutionLogs omap]; try done.
  all: intros [Hx%mergeExecution_subseteq|Hx]; [|right; by right].
  all: apply (proj1 (elem_of_cons _ _ _)) in Hx as [->|Hx]; [right; by left|by left].
Qed.

(** X27. The history of the console stays sorted by [startedAt]
    descending under every sequence of events, when it was sorted and the
    logs of one execution, held or delivered, all carry the same start. *)
Theorem console_history_stays_ordered
    (events : list ServerConsole.CommandCenterEvent) (d : ServerConsole.Data.t) :
  sortedByStartedAtDesc ServerConsole.ExecutionLog.startedAt (ServerConsole.Data.history d) →
  (∀ x y,
     x ∈ ServerConsole.Data.history d ++ consoleExecutionLogs events →
     y ∈ ServerConsole.Data.history d ++ consoleExecutionLogs events →
     ServerConsole.ExecutionLog.id x = ServerConsole.ExecutionLog.id y →
     dayjs_valueOf (ServerConsole.ExecutionLog.startedAt x)
     = dayjs_valueOf (ServerConsole.ExecutionLog.startedAt y)) →
  sortedByStartedAtDesc ServerConsole.ExecutionLog.startedAt
    (ServerConsole.Data.history (ServerConsole.deliver events d)).
Proof.
  revert d. induction events as [|event events IH]; intros d Hsorted Hsame; [done|].
  cbn [ServerConsole.deliver foldl].
  apply (IH (ServerConsole.listener event d)).
  - rewrite history_listener.
    destruct event as [p|p|i|p|p|p]; try done; apply mergeExecution_sorted; try done;
      intros x Hx Hid; apply Hsame; try done; rewrite elem_of_app;
      [by left|right; by left|by left|right; by left|by left|right; by left].
  - intros x y Hx%history_listener_subseteq Hy%history_listener_subseteq.
    by apply Hsame.
Qed.

End console_history_facts.

Lemma console_history_stays_ordered_witness :
  sortedByStartedAtDesc (H := Reference.runtime) ServerConsole.ExecutionLog.startedAt
    (ServerConsole.Data.history
       (ServerConsole.deliver (H := Reference.runtime) Examples.consoleSession
          Examples.consoleEmpty)).
Proof.
  apply (console_history_stays_ordered (H := Reference.runtime) Examples.consoleSession
           Examples.consoleEmpty); [constructor|].
  intros x y Hx Hy _. cbn in Hx, Hy.
  apply (proj1 (elem_of_cons _ _ _)) in Hx as [->|Hx];
    [|apply (proj1 (elem_of_cons _ _ _)) in Hx as [->|Hx];
      [|by apply elem_of_nil in Hx]];
    (apply (proj1 (elem_of_cons _ _ _)) in Hy as [->|Hy];
     [|apply (proj1 (elem_of_cons _ _ _)) in Hy as [->|Hy];
       [|by apply elem_of_nil in Hy]]); reflexivity.
Defined.

(** * What a text field of entries gives *)

Section entry_facts.
Implicit Types (s : string) (c sep : ascii).

Lemma occurs_trimStart sep s : occurs sep s = false → occurs sep (trimStart s) = false.
Proof.
  induction s as [|c s IH]; [done|]. simpl. intros [Hc Hs]%orb_false_elim.
  destruct (isWhiteSpace c); [by apply IH|]. simpl. by rewrite Hc, Hs.
Qed.

Lemma occurs_trimEnd sep s : occurs sep s = false → occurs sep (trimEnd s) = false.
Proof.
  induction s as [|c s IH]; [done|]. simpl. intros [Hc Hs]%orb_false_elim.
  specialize (IH Hs). destruct (trimEnd s) as [|d t].
  - destruct (isWhiteSpace c); [done|]. simpl. by rewrite Hc.
  - cbn [occurs]. cbn [occurs] in IH. by rewrite Hc, IH.
Qed.

Lemma trimEnd_idemp s : trimEnd (trimEnd s) = trimEnd s.
Proof.
  induction s as [|c s IH]; [done|]. simpl.
  destruct (trimEnd s) as [|d t] eqn:Hs.
  - destruct (isWhiteSpace c) eqn:Hc; [done|]. simpl. by rewrite Hc.
  - cbn [trimEnd]. cbn [trimEnd] in IH. by rewrite IH.
Qed.

Lemma trimStart_trimEnd_head c s :
  isWhiteSpace c = false → trimStart (trimEnd (String c s)) = trimEnd (String c s).
Proof.
  intros Hc. cbn [trimEnd]. destruct (trimEnd s); rewrite ?Hc; cbn [trimStart];
    by rewrite Hc.
Qed.

Lemma trimStart_head s :
  trimStart s = "" ∨ ∃ c s', trimStart s = String c s' ∧ isWhiteSpace c = false.
Proof.
  induction s as [|c s IH]; [by left|]. simpl.
  destruct (isWhiteSpace c) eqn:Hc; [done|]. right. by exists c, s.
Qed.

Lemma trim_idemp s : trim (trim s) = trim s.
Proof.
  unfold trim. destruct (trimStart_head s) as [->|(c & s' & -> & Hc)]; [done|].
  by rewrite trimStart_trimEnd_head, trimEnd_idemp.
Qed.

Lemma split_pieces sep s : Forall (λ piece, occurs sep piece = false) (split sep s).
Proof.
  induction s as [|c s IH]; simpl; [by repeat constructor|].
  destruct (Ascii.eqb c sep) eqn:Hc; [by constructor|].
  destruct (split sep s) as [|piece pieces]; [constructor; [|done]; simpl; by rewrite Hc|].
  apply Forall_cons in IH as [Hpiece Hpieces]. constructor; [|done].
  simpl. by rewrite Hc.
Qed.

Lemma entries_plain sep s :
  Forall (plainEntry sep) (List.filter truthy (trim <$> split sep s)).
Proof.
  apply Forall_forall. intros entry Hentry%list_elem_of_In.
  apply filter_In in Hentry as [Hin Htruthy].
  apply list_elem_of_In, list_elem_of_fmap in Hin as (piece & -> & Hpiece).
  split; [by apply truthy_true|]. split; [apply trim_idemp|].
  apply occurs_trimEnd, occurs_trimStart.
  pose proof (split_pieces sep s) as Hpieces.
  by eapply Forall_forall in Hpieces.
Qed.

(** X28. What the text fields give is always plain: every parameter the
    sheet of the client reads off its text area, and every argument and
    tag the form of the console sends, is not empty, has no white space
    around it and does not hold the separator; so the sheet reads its own
    parameters, written one per line, back as they are. *)
Theorem entries_are_plain
    (parameterInput : string) (values : ServerConsole.CommandFormValues.t) :
  Forall (plainEntry "010") (Client.parseParameters parameterInput) ∧
  Client.parseParameters (join lineFeed (Client.parseParameters parameterInput))
  = Client.parseParameters parameterInput ∧
  Forall (plainEntry "010") (ServerConsole.Payload.args (ServerConsole.formPayload values)) ∧
  match ServerConsole.Payload.tags (ServerConsole.formPayload values) with
  | Some tags => Forall (plainEntry ",") tags
  | None => True
  end.
Proof.
  assert (Hparams : Forall (plainEntry "010") (Client.parseParameters parameterInput)).
  { unfold Client.parseParameters. rewrite splitLines_split. apply entries_plain. }
  split; [done|]. split.
  { unfold Client.parseParameters at 1. rewrite splitLines_split.
    by apply lines_roundtrip. }
  split; [apply entries_plain|].
  unfold ServerConsole.formPayload. cbn [ServerConsole.Payload.tags].
  destruct (ServerConsole.CommandFormValues.tags values); [apply entries_plain|done].
Qed.

End entry_facts.

(** * The guard of the sheet *)

Section guard_facts.
Implicit Types (s a b : string) (c : ascii) (l : list string).












End guard_facts.



